(** * QuickSearch pino transport: the delivery pipeline

    A shallow embedding of the TypeScript sources

    - [types.ts]        the data model and the level tables,
    - [utils.ts]        [getLevelValue], [meetsMinimumLevel],
    - [http-client.ts]  [QuickSearchHttpClient],
    - [transport.ts]    [flush], [addToBuffer], [close] and the flush timer,

    followed by the properties of the retry loop, of the batch dispatcher
    and of the buffer manager.

    Conventions.  Counts ([retryAttempts], [batchSize], [queueSizeLimit])
    are natural numbers, durations in milliseconds and log levels are
    integers.  The [selfLog] calls only write to stderr and are left out.
    What the network answers is an input of the model: every asynchronous
    function is given the outcome of the operations it awaits. *)

From Stdlib Require Import ZArith String Ascii List DecimalString Lia.
From stdpp Require Import base strings list gmap.

Open Scope string_scope.
Open Scope nat_scope.
Open Scope list_scope.

Set Warnings "-register-all,-abstract-large-number".

(** ** types.ts *)

Inductive QuickSearchEventType :=
  | Trace | Debug | Information | Warning | Error | Critical.

(** The values a [data] bag may hold once serialized. *)
Inductive JsonValue :=
  | JNull
  | JBool (b : bool)
  | JNumber (z : Z)
  | JString (s : string)
  | JArray (items : list JsonValue)
  | JObject (fields : list (string * JsonValue)).

Record QuickSearchEvent := {
  type : QuickSearchEventType;
  application : string;
  timestamp : string;
  message : string;
  data : list (string * JsonValue)
}.

Record EventResponse := {
  success : bool;
  response_message : string;
  eventId : option string
}.

(** ** JavaScript values the client handles *)

(** An [Error] object: its [name], its [message] and the ad hoc [code]
    field the client attaches ([undefined] is [None]). *)
Record JsError := {
  name : string;
  error_message : string;
  code : option string
}.

(** How a call ends: [return a] or [throw e]. *)
Inductive Completion (E A : Type) :=
  | Returned (a : A)
  | Threw (e : E).
Arguments Returned {E A} a.
Arguments Threw {E A} e.

(** [try { body } catch (e) { handler(e) }] *)
Definition try_catch {E E' A} (body : Completion E A)
    (handler : E -> Completion E' A) : Completion E' A :=
  match body with
  | Returned a => Returned a
  | Threw e => handler e
  end.

(** Template-literal rendering of an integer. *)
Definition string_of_nat (n : nat) : string :=
  NilZero.string_of_uint (Nat.to_uint n).

Definition string_of_Z (z : Z) : string :=
  NilZero.string_of_int (Z.to_int z).

(** [s.replace(/\/$/, '')]: without the [m] flag [$] only matches at the end
    of the input, so at most one trailing slash goes. *)
Fixpoint strip_trailing_slash (s : string) : string :=
  match s with
  | EmptyString => EmptyString
  | String c rest =>
      match rest with
      | EmptyString => if Ascii.eqb c "/" then EmptyString else s
      | String _ _ => String c (strip_trailing_slash rest)
      end
  end.

(** Truthiness of an optional string: [undefined] and [''] are falsy. *)
Definition truthy (s : option string) : bool :=
  match s with
  | Some (String _ _) => true
  | _ => false
  end.

(** ** http-client.ts *)

Record HttpClientOptions := {
  opt_serverUrl : string;
  opt_apiKey : option string;
  opt_timeout : Z;
  opt_retryAttempts : nat;
  opt_retryDelay : Z
}.

Record QuickSearchHttpClient := {
  serverUrl : string;
  apiKey : option string;
  timeout : Z;
  retryAttempts : nat;
  retryDelay : Z;
  endpoint : string
}.

(** [constructor(options)] *)
Definition new_client (options : HttpClientOptions) : QuickSearchHttpClient :=
  let url := strip_trailing_slash (opt_serverUrl options) in
  {| serverUrl := url;
     apiKey := opt_apiKey options;
     timeout := opt_timeout options;
     retryAttempts := opt_retryAttempts options;
     retryDelay := opt_retryDelay options;
     endpoint := url +:+ "/api/events" |}.

(** The argument of [fetch] (the abort signal shows in [FetchOutcome]). *)
Record Request := {
  url : string;
  method : string;
  headers : gmap string string;
  body : string
}.

(** What [fetch] and the reads of the response body do, as seen by
    [sendEvent]: [response.text()] answers [None] when it rejects,
    [response.json()] resolves or rejects, [fetch] itself resolves with a
    status or rejects. *)
Inductive BodyRead :=
  | BodyJson (r : EventResponse)
  | BodyRejected (e : JsError).

Inductive FetchOutcome :=
  | FetchResolved (status : nat) (text : option string) (json : BodyRead)
  | FetchRejected (e : JsError).

(** What the retry loop does to the outside world, in order. *)
Inductive IO :=
  | Fetch (req : Request)
  | Sleep (ms : Z).

(** How [sendEventWithRetry] ends: the response, the [throw lastError]
    inside the loop, or the [throw lastError] after it. *)
Inductive RetryOutcome :=
  | Delivered (r : EventResponse)
  | Aborted (e : JsError)
  | Exhausted (lastError : option JsError).

Section Client.

(** [JSON.stringify] on events. *)
Variable JSON_stringify : QuickSearchEvent -> string.

Variable c : QuickSearchHttpClient.

(** [getHeaders()] *)
Definition getHeaders : gmap string string :=
  let headers : gmap string string :=
    {[ "Content-Type" := "application/json" ]} in
  if truthy (apiKey c)
  then <[ "Authorization" := "Bearer " +:+ default EmptyString (apiKey c) ]> headers
  else headers.

(** The argument of [fetch] in [sendEvent]. *)
Definition request (event : QuickSearchEvent) : Request :=
  {| url := endpoint c;
     method := "POST";
     headers := getHeaders;
     body := JSON_stringify event |}.

(** [response.ok] *)
Definition ok (status : nat) : bool :=
  (200 <=? status) && (status <=? 299).

Definition http_error (status : nat) (text : option string) : JsError :=
  {| name := "Error";
     error_message :=
       "HTTP " +:+ string_of_nat status +:+ ": "
         +:+ default "Unknown error" text;
     code := Some ("HTTP_" +:+ string_of_nat status) |}.

Definition timeoutError : JsError :=
  {| name := "Error";
     error_message :=
       "Request timeout after " +:+ string_of_Z (timeout c) +:+ "ms";
     code := Some "TIMEOUT" |}.

(** The [catch] clause of [sendEvent]. *)
Definition on_error (error : JsError) : Completion JsError EventResponse :=
  if String.eqb (name error) "AbortError"
  then Threw timeoutError
  else Threw error.

(** [sendEvent(event)]: the request it hands to [fetch] and, given what
    the network did with it, how the call ends. *)
Definition sendEvent (event : QuickSearchEvent) (net : FetchOutcome)
    : Request * Completion JsError EventResponse :=
  (request event,
   try_catch
     match net with
     | FetchRejected e => Threw e
     | FetchResolved status text json =>
         if negb (ok status) then Threw (http_error status text)
         else match json with
              | BodyJson result => Returned result
              | BodyRejected e => Threw e
              end
     end
     on_error).

(** [isNonRetryableError(error)] *)
Definition isNonRetryableError (error : JsError) : bool :=
  match code error with
  | None => false
  | Some code =>
      if String.eqb code EmptyString then false
      else if String.prefix "HTTP_4" code && negb (String.eqb code "HTTP_429")
      then true
      else false
  end.

(** The body of the [for] loop of [sendEventWithRetry], [attempt] ranging
    over [attempts]; [net k] is what the network does at attempt [k].
    Whatever [sendEvent] throws is an [Error], so [lastError] is the error
    caught. *)
Fixpoint retry_loop (event : QuickSearchEvent) (net : nat -> FetchOutcome)
    (attempts : list nat) (lastError : option JsError)
    : list IO * RetryOutcome :=
  match attempts with
  | [] => ([], Exhausted lastError)
  | attempt :: rest =>
      let '(req, result) := sendEvent event (net attempt) in
      match result with
      | Returned r => ([Fetch req], Delivered r)
      | Threw error =>
          if isNonRetryableError error then ([Fetch req], Aborted error)
          else if attempt <? retryAttempts c then
            let delay := (retryDelay c * 2 ^ Z.of_nat attempt)%Z in
            let '(io, out) := retry_loop event net rest (Some error) in
            (Fetch req :: Sleep delay :: io, out)
          else
            let '(io, out) := retry_loop event net rest (Some error) in
            (Fetch req :: io, out)
      end
  end.

(** [sendEventWithRetry(event)]:
    [for (let attempt = 0; attempt <= this.retryAttempts; attempt++)]. *)
Definition sendEventWithRetry (event : QuickSearchEvent)
    (net : nat -> FetchOutcome) : list IO * RetryOutcome :=
  retry_loop event net (seq 0 (S (retryAttempts c))) None.

(** What a settled [sendEventWithRetry] promise holds. *)
Definition settled (out : RetryOutcome)
    : Completion (option JsError) EventResponse :=
  match out with
  | Delivered r => Returned r
  | Aborted e => Threw (Some e)
  | Exhausted e => Threw e
  end.

(** [Promise.all(promises)]: the responses when every promise fulfils,
    otherwise the reason of the promise that rejects first; [instant i]
    is when promise [i] settles. *)
Fixpoint first_rejection (instant : nat -> nat) (i : nat)
    (outs : list RetryOutcome) : option (nat * option JsError) :=
  match outs with
  | [] => None
  | out :: rest =>
      let later := first_rejection instant (S i) rest in
      match settled out with
      | Returned _ => later
      | Threw e =>
          match later with
          | Some (t, e') =>
              if t <? instant i then Some (t, e') else Some (instant i, e)
          | None => Some (instant i, e)
          end
      end
  end.

Fixpoint responses (outs : list RetryOutcome) : list EventResponse :=
  match outs with
  | [] => []
  | Delivered r :: rest => r :: responses rest
  | _ :: rest => responses rest
  end.

Definition Promise_all (instant : nat -> nat) (outs : list RetryOutcome)
    : Completion (option JsError) (list EventResponse) :=
  match first_rejection instant 0 outs with
  | Some (_, e) => Threw e
  | None => Returned (responses outs)
  end.

(** [events.map(event => this.sendEventWithRetry(event))]: the sends run
    independently, [net i] answering the attempts made for event [i]. *)
Definition send_each (net : nat -> nat -> FetchOutcome)
    (events : list QuickSearchEvent) : list (list IO * RetryOutcome) :=
  imap (fun i event => sendEventWithRetry event (net i)) events.

(** [sendEvents(events)]: the I/O of every send, and how the call ends. *)
Definition sendEvents (net : nat -> nat -> FetchOutcome)
    (instant : nat -> nat) (events : list QuickSearchEvent)
    : list (list IO) * Completion (option JsError) unit :=
  if length events =? 0 then ([], Returned tt)
  else
    let promises := send_each net events in
    (map fst promises,
     try_catch
       match Promise_all instant (map snd promises) with
       | Returned _ => Returned tt
       | Threw e => Threw e
       end
       (fun _ => Returned tt)).

End Client.

(** ** utils.ts: level filtering *)

(** What a property read on a plain object can yield here. *)
Inductive JsValue :=
  | JsUndefined
  | JsNum (z : Z)
  | JsFunction (fname : string)
  | JsObject (descr : string).

(** [MIN_LEVEL_VALUES], the own properties of the object literal. *)
Definition MIN_LEVEL_VALUES : gmap string Z :=
  list_to_map
    [("trace", 10%Z); ("debug", 20%Z); ("info", 30%Z);
     ("warn", 40%Z); ("error", 50%Z); ("fatal", 60%Z)].

(** An object literal inherits from [Object.prototype]; these are the
    properties every such object answers to. *)
Definition Object_prototype : gmap string JsValue :=
  list_to_map
    [("constructor", JsFunction "Object");
     ("__proto__", JsObject "Object.prototype");
     ("hasOwnProperty", JsFunction "hasOwnProperty");
     ("isPrototypeOf", JsFunction "isPrototypeOf");
     ("propertyIsEnumerable", JsFunction "propertyIsEnumerable");
     ("toLocaleString", JsFunction "toLocaleString");
     ("toString", JsFunction "toString");
     ("valueOf", JsFunction "valueOf");
     ("__defineGetter__", JsFunction "__defineGetter__");
     ("__defineSetter__", JsFunction "__defineSetter__");
     ("__lookupGetter__", JsFunction "__lookupGetter__");
     ("__lookupSetter__", JsFunction "__lookupSetter__")].

(** [obj[key]] on an object literal with own properties [own]: the own
    property, else the inherited one, else [undefined]. *)
Definition get_property (own : gmap string Z) (key : string) : JsValue :=
  match own !! key with
  | Some v => JsNum v
  | None => default JsUndefined (Object_prototype !! key)
  end.

(** [v ?? d] *)
Definition nullish_or (v d : JsValue) : JsValue :=
  match v with
  | JsUndefined => d
  | _ => v
  end.

(** [String.prototype.toLowerCase] on ASCII text. *)
Definition lower (a : ascii) : ascii :=
  let n := nat_of_ascii a in
  if (65 <=? n) && (n <=? 90) then ascii_of_nat (n + 32) else a.

Fixpoint toLowerCase (s : string) : string :=
  match s with
  | EmptyString => EmptyString
  | String a rest => String (lower a) (toLowerCase rest)
  end.

(** [getLevelValue(levelName)] *)
Definition getLevelValue (levelName : string) : JsValue :=
  nullish_or (get_property MIN_LEVEL_VALUES (toLowerCase levelName))
             (JsNum 10).

(** [level >= minValue] for a numeric [level]: a function or an object on
    the right converts to [NaN], and every comparison with [NaN] is false. *)
Definition js_ge (level : Z) (minValue : JsValue) : bool :=
  match minValue with
  | JsNum v => (v <=? level)%Z
  | _ => false
  end.

(** [meetsMinimumLevel(level, minimumLevel)] *)
Definition meetsMinimumLevel (level : Z) (minimumLevel : string) : bool :=
  let minValue := getLevelValue minimumLevel in
  js_ge level minValue.

(** The six level names of [PinoLevelName]. *)
Definition level_names : list string :=
  ["trace"; "debug"; "info"; "warn"; "error"; "fatal"].

(** ** transport.ts *)

Record QuickSearchTransportOptions := {
  o_serverUrl : string;
  o_apiKey : option string;
  o_application : option string;
  o_batchSize : option nat;
  o_flushInterval : option Z;
  o_queueSizeLimit : option nat;
  o_timeout : option Z;
  o_retryAttempts : option nat;
  o_retryDelay : option Z;
  o_minimumLevel : option string
}.

(** The merged [config] object. *)
Record Config := {
  cfg_serverUrl : string;
  cfg_apiKey : option string;
  cfg_application : string;
  batchSize : nat;
  flushInterval : Z;
  queueSizeLimit : nat;
  cfg_timeout : Z;
  cfg_retryAttempts : nat;
  cfg_retryDelay : Z;
  minimumLevel : string
}.

(** [options.x ?? DEFAULTS.x] for every optional field. *)
Definition merge_defaults (options : QuickSearchTransportOptions) : Config :=
  {| cfg_serverUrl := o_serverUrl options;
     cfg_apiKey := o_apiKey options;
     cfg_application := default "unknown" (o_application options);
     batchSize := default 100 (o_batchSize options);
     flushInterval := default 2000%Z (o_flushInterval options);
     queueSizeLimit := default 10000 (o_queueSizeLimit options);
     cfg_timeout := default 30000%Z (o_timeout options);
     cfg_retryAttempts := default 3 (o_retryAttempts options);
     cfg_retryDelay := default 1000%Z (o_retryDelay options);
     minimumLevel := default "trace" (o_minimumLevel options) |}.

(** [TransportState]; a running interval timer is [Some] of its period. *)
Record TransportState := {
  buffer : list QuickSearchEvent;
  flushTimer : option Z;
  closed : bool;
  flushing : bool
}.

(** What the transport does that its callers can see. *)
Inductive Obs :=
  | FlushCalled
  | Dispatched (events : list QuickSearchEvent)
  | FlushSettled
  | IntervalSet (ms : Z)
  | IntervalCleared
  | CloseSettled.

(** A synchronous stretch of code over the shared [state]: it returns a
    value, leaves a state and a list of observations. *)
Definition Sync (A : Type) : Type :=
  TransportState -> A * TransportState * list Obs.

#[global] Instance Sync_ret : MRet Sync :=
  fun A a st => (a, st, []).

#[global] Instance Sync_bind : MBind Sync :=
  fun A B f m st =>
    let '(a, st1, obs1) := m st in
    let '(b, st2, obs2) := f a st1 in
    (b, st2, obs1 ++ obs2).

Definition get : Sync TransportState := fun st => (st, st, []).
Definition put (st : TransportState) : Sync unit := fun _ => (tt, st, []).
Definition emit (o : Obs) : Sync unit := fun st => (tt, st, [o]).

Definition state_after {A} (m : Sync A) (st : TransportState) : TransportState :=
  (m st).1.2.
Definition observed {A} (m : Sync A) (st : TransportState) : list Obs :=
  (m st).2.

(** Assignments to the fields of [state]. *)
Definition set_buffer (b : list QuickSearchEvent) : Sync unit :=
  st ← get;
  put {| buffer := b; flushTimer := flushTimer st;
         closed := closed st; flushing := flushing st |}.
Definition set_flushTimer (t : option Z) : Sync unit :=
  st ← get;
  put {| buffer := buffer st; flushTimer := t;
         closed := closed st; flushing := flushing st |}.
Definition set_closed (b : bool) : Sync unit :=
  st ← get;
  put {| buffer := buffer st; flushTimer := flushTimer st;
         closed := b; flushing := flushing st |}.
Definition set_flushing (b : bool) : Sync unit :=
  st ← get;
  put {| buffer := buffer st; flushTimer := flushTimer st;
         closed := closed st; flushing := b |}.

(** [state.buffer.splice(0)]: empties the array, returns what it held. *)
Definition splice0 : Sync (list QuickSearchEvent) :=
  st ← get;
  set_buffer [];;
  mret (buffer st).

(** [state.buffer.shift()] *)
Definition shift : Sync unit :=
  st ← get;
  set_buffer (tail (buffer st)).

(** [state.buffer.push(event)] *)
Definition push (event : QuickSearchEvent) : Sync unit :=
  st ← get;
  set_buffer (buffer st ++ [event]).

Section Transport.

Variable config : Config.

(** [flush()] up to its [await]: [Some events] when it is suspended on
    [httpClient.sendEvents(events)], [None] when it returned. *)
Definition flush : Sync (option (list QuickSearchEvent)) :=
  emit FlushCalled;;
  st ← get;
  if (length (buffer st) =? 0) || flushing st then
    emit FlushSettled;;
    mret None
  else
    set_flushing true;;
    events ← splice0;
    emit (Dispatched events);;
    mret (Some events).

(** [flush()] from its [await] on, [sent] being how [sendEvents] ended:
    the [try] and [catch] arms only log, [finally] clears the flag. *)
Definition flush_resume (sent : Completion (option JsError) unit)
    : Sync unit :=
  match sent with
  | Returned _ => mret tt
  | Threw _ => mret tt
  end;;
  set_flushing false;;
  emit FlushSettled.

(** The overflow check and the [push] of [addToBuffer]. *)
Definition store (event : QuickSearchEvent) : Sync unit :=
  st ← get;
  (if queueSizeLimit config <=? length (buffer st) then shift else mret tt);;
  push event.

(** [addToBuffer(event)] *)
Definition addToBuffer (event : QuickSearchEvent) : Sync unit :=
  st ← get;
  if closed st then mret tt
  else
    store event;;
    st ← get;
    if batchSize config <=? length (buffer st) then flush;; mret tt
    else mret tt.

(** [startFlushTimer()] *)
Definition startFlushTimer : Sync unit :=
  st ← get;
  match flushTimer st with
  | Some _ => mret tt
  | None =>
      set_flushTimer (Some (flushInterval config));;
      emit (IntervalSet (flushInterval config))
  end.

(** [stopFlushTimer()] *)
Definition stopFlushTimer : Sync unit :=
  st ← get;
  match flushTimer st with
  | Some _ => emit IntervalCleared;; set_flushTimer None
  | None => mret tt
  end.

(** [close()] up to its [await flush()]: [true] when it is suspended on a
    flush in flight, [false] when it has returned. *)
Definition close : Sync bool :=
  st ← get;
  if closed st then
    emit CloseSettled;;
    mret false
  else
    set_closed true;;
    stopFlushTimer;;
    pending ← flush;
    match pending with
    | Some _ => mret true
    | None => emit CloseSettled;; mret false
    end.

(** The calls the event loop makes into the transport: a record arrives,
    the interval fires, the logger closes, [sendEvents] settles. *)
Inductive Call :=
  | Enqueue (event : QuickSearchEvent)
  | Tick
  | Close
  | Settle (sent : Completion (option JsError) unit).

(** The shared state, and whether a [close()] is suspended on the flush in
    flight. *)
Record System := {
  state : TransportState;
  closing : bool
}.

Definition step (s : System) (call : Call) : System * list Obs :=
  match call with
  | Enqueue event =>
      let '(_, st, obs) := addToBuffer event (state s) in
      ({| state := st; closing := closing s |}, obs)
  | Tick =>
      match flushTimer (state s) with
      | Some _ =>
          let '(_, st, obs) := flush (state s) in
          ({| state := st; closing := closing s |}, obs)
      | None => (s, [])
      end
  | Close =>
      let '(suspended, st, obs) := close (state s) in
      ({| state := st; closing := closing s || suspended |}, obs)
  | Settle sent =>
      if flushing (state s) then
        let '(_, st, obs) := flush_resume sent (state s) in
        ({| state := st; closing := false |},
         if closing s then obs ++ [CloseSettled] else obs)
      else (s, [])
  end.

Fixpoint run (s : System) (calls : list Call) : System * list Obs :=
  match calls with
  | [] => (s, [])
  | call :: rest =>
      let '(s1, obs1) := step s call in
      let '(s2, obs2) := run s1 rest in
      (s2, obs1 ++ obs2)
  end.

(** The transport as [quickSearchTransport] leaves it: empty state, then
    [startFlushTimer()]. *)
Definition started : System :=
  {| state :=
       state_after startFlushTimer
         {| buffer := []; flushTimer := None;
            closed := false; flushing := false |};
     closing := false |}.

End Transport.

(** [quickSearchTransport(options)]: the validation of [serverUrl], the
    merged configuration and the started transport. *)
Definition quickSearchTransport (options : QuickSearchTransportOptions)
    : Completion JsError (Config * System) :=
  if String.eqb (o_serverUrl options) EmptyString then
    Threw {| name := "Error"; error_message := "serverUrl is required";
             code := None |}
  else
    let config := merge_defaults options in
    Returned (config, started config).

(** The [HttpClientOptions] the transport builds its client from. *)
Definition client_options (config : Config) : HttpClientOptions :=
  {| opt_serverUrl := cfg_serverUrl config;
     opt_apiKey := cfg_apiKey config;
     opt_timeout := cfg_timeout config;
     opt_retryAttempts := cfg_retryAttempts config;
     opt_retryDelay := cfg_retryDelay config |}.

(** Counting in a list of observations. *)
Definition flush_calls (obs : list Obs) : nat :=
  length (omap (fun o => match o with FlushCalled => Some tt | _ => None end)
               obs).

Definition dispatched (obs : list Obs) : list (list QuickSearchEvent) :=
  omap (fun o => match o with Dispatched events => Some events | _ => None end)
       obs.

Definition fetches (io : list IO) : list Request :=
  omap (fun x => match x with Fetch req => Some req | Sleep _ => None end) io.

Definition sleeps (io : list IO) : list Z :=
  omap (fun x => match x with Sleep ms => Some ms | Fetch _ => None end) io.

(** ** The failure classes of the delivery client

    The timer of [sendEvent] aborts the request: [fetch], or the read of
    the body, then rejects with an [AbortError].  A network-level failure
    makes [fetch] reject with a [TypeError], which carries no [code]. *)
Definition is_abort (e : JsError) : bool :=
  String.eqb (name e) "AbortError".

Definition is_network_error (e : JsError) : bool :=
  String.eqb (name e) "TypeError" && bool_decide (code e = None).

Definition is_timeout (net : FetchOutcome) : bool :=
  match net with
  | FetchRejected e => is_abort e
  | FetchResolved status _ (BodyRejected e) => ok status && is_abort e
  | FetchResolved _ _ (BodyJson _) => false
  end.

Definition is_network_failure (net : FetchOutcome) : bool :=
  match net with
  | FetchRejected e => is_network_error e
  | FetchResolved _ _ _ => false
  end.

Definition has_status (p : nat -> bool) (net : FetchOutcome) : bool :=
  match net with
  | FetchResolved status _ _ => p status
  | FetchRejected _ => false
  end.

Definition is_server_error (status : nat) : bool :=
  (500 <=? status) && (status <=? 599).

(** Timeouts, network-level failures, HTTP 429 and every 5xx. *)
Definition retryable_failure (net : FetchOutcome) : bool :=
  is_timeout net || is_network_failure net
  || has_status (Nat.eqb 429) net || has_status is_server_error net.

(** ** Threshold accounting for the size trigger *)

Section Threshold.

Variable config : Config.

(** The enqueue is accepted and leaves [batchSize] or more events. *)
Definition reaches_threshold (st : TransportState)
    (event : QuickSearchEvent) : bool :=
  negb (closed st)
  && (batchSize config
        <=? length (buffer (state_after (store config event) st))).

(** The enqueue takes the buffer from below [batchSize] to [batchSize] or
    more. *)
Definition crosses_threshold (st : TransportState)
    (event : QuickSearchEvent) : bool :=
  (length (buffer st) <? batchSize config) && reaches_threshold st event.

Definition is_settle (call : Call) : bool :=
  match call with
  | Settle _ => true
  | _ => false
  end.

(** How many of the successive enqueues satisfy [p] when they arrive. *)
Fixpoint count_enqueues (p : TransportState -> QuickSearchEvent -> bool)
    (s : System) (events : list QuickSearchEvent) : nat :=
  match events with
  | [] => 0
  | event :: rest =>
      (if p (state s) event then 1 else 0)
      + count_enqueues p (step config s (Enqueue event)).1 rest
  end.

End Threshold.

(** ** Sample data *)

Definition message_only (event : QuickSearchEvent) : string := message event.

Definition sample_event (text : string) : QuickSearchEvent :=
  {| type := Information; application := "my-app";
     timestamp := "2024-12-30T08:30:00.000Z"; message := text; data := [] |}.

Definition sample_response : EventResponse :=
  {| success := true; response_message := "accepted"; eventId := None |}.

Definition sample_client : QuickSearchHttpClient :=
  new_client {| opt_serverUrl := "http://localhost:3000";
                opt_apiKey := Some "k"; opt_timeout := 30000;
                opt_retryAttempts := 3; opt_retryDelay := 1000 |}.

Definition always (o : FetchOutcome) : nat -> FetchOutcome := fun _ => o.

Definition not_found : FetchOutcome :=
  FetchResolved 404 (Some "Not Found") (BodyJson sample_response).

Definition rate_limited : FetchOutcome :=
  FetchResolved 429 None (BodyJson sample_response).

(** Options whose URL ends with a slash and whose API key is empty. *)
Definition slash_options : HttpClientOptions :=
  {| opt_serverUrl := "http://localhost:3000/"; opt_apiKey := Some EmptyString;
     opt_timeout := 30000; opt_retryAttempts := 3; opt_retryDelay := 1000 |}.

(** Options that set [queueSizeLimit] to zero, and options with a batch
    size of two. *)
Definition zero_limit_options : QuickSearchTransportOptions :=
  {| o_serverUrl := "http://localhost:3000"; o_apiKey := None;
     o_application := None; o_batchSize := None; o_flushInterval := None;
     o_queueSizeLimit := Some 0; o_timeout := None; o_retryAttempts := None;
     o_retryDelay := None; o_minimumLevel := None |}.

Definition small_batch_options : QuickSearchTransportOptions :=
  {| o_serverUrl := "http://localhost:3000"; o_apiKey := None;
     o_application := None; o_batchSize := Some 2; o_flushInterval := None;
     o_queueSizeLimit := Some 3; o_timeout := None; o_retryAttempts := None;
     o_retryDelay := None; o_minimumLevel := None |}.

Definition zero_limit_config : Config := merge_defaults zero_limit_options.

Definition small_batch_config : Config := merge_defaults small_batch_options.

Definition five_events : list QuickSearchEvent :=
  map sample_event ["a"; "b"; "c"; "d"; "e"].

(** ** types.ts and utils.ts: level mapping and event formatting *)

(** The [err] property of a log record: the three fields [extractException]
    reads, what [String(err)] gives, and [err.constructor?.name]. *)
Record PinoError := {
  err_type : option string;
  err_message : option string;
  err_stack : option string;
  err_string : string;
  err_constructor_name : option string
}.

Module Pino.

(** [PinoLevelName] *)
Inductive PinoLevelName := trace | debug | info | warn | error | fatal.

(** [PinoLogObject]: the named properties, and in [rest] the additional
    ones as [Object.entries] lists them. *)
Record PinoLogObject := {
  level : Z;
  time : Z;
  pid : Z;
  hostname : string;
  msg : option string;
  err : option PinoError;
  traceId : option string;
  spanId : option string;
  rest : list (string * JsonValue)
}.

End Pino.

(** The string a level name is. *)
Definition level_name (n : Pino.PinoLevelName) : string :=
  match n with
  | Pino.trace => "trace"
  | Pino.debug => "debug"
  | Pino.info => "info"
  | Pino.warn => "warn"
  | Pino.error => "error"
  | Pino.fatal => "fatal"
  end.

(** [PINO_LEVELS]; a numeric level reads the property named by its decimal
    form, which no inherited property is. *)
Definition PINO_LEVELS : gmap Z Pino.PinoLevelName :=
  list_to_map
    [(10%Z, Pino.trace); (20%Z, Pino.debug); (30%Z, Pino.info);
     (40%Z, Pino.warn); (50%Z, Pino.error); (60%Z, Pino.fatal)].

(** [LEVEL_TO_TYPE] *)
Definition LEVEL_TO_TYPE (n : Pino.PinoLevelName) : QuickSearchEventType :=
  match n with
  | Pino.trace => Trace
  | Pino.debug => Debug
  | Pino.info => Information
  | Pino.warn => Warning
  | Pino.error => Error
  | Pino.fatal => Critical
  end.

(** [mapLevelToType(level)] *)
Definition mapLevelToType (level : Z) : QuickSearchEventType :=
  match PINO_LEVELS !! level with
  | Some levelName => LEVEL_TO_TYPE levelName
  | None =>
      if (level <? 10)%Z then Trace
      else if (level <? 20)%Z then Trace
      else if (level <? 30)%Z then Debug
      else if (level <? 40)%Z then Information
      else if (level <? 50)%Z then Warning
      else if (level <? 60)%Z then Error
      else Critical
  end.

(** [mapLevelToName(level)] *)
Definition mapLevelToName (level : Z) : Pino.PinoLevelName :=
  match PINO_LEVELS !! level with
  | Some levelName => levelName
  | None =>
      if (level <? 20)%Z then Pino.trace
      else if (level <? 30)%Z then Pino.debug
      else if (level <? 40)%Z then Pino.info
      else if (level <? 50)%Z then Pino.warn
      else if (level <? 60)%Z then Pino.error
      else Pino.fatal
  end.

(** *** Own properties of an object, in enumeration order

    Keys that are array indices come first, in ascending order; the other
    keys follow in the order they were first assigned. *)

Definition array_index (key : string) : option N :=
  match NilZero.uint_of_string key with
  | Some u =>
      let n := N.of_uint u in
      if String.eqb (NilZero.string_of_uint (N.to_uint n)) key
         && (n <? 4294967295)%N
      then Some n else None
  | None => None
  end.

(** [o[key]] on own properties. *)
Fixpoint get_own (key : string) (o : list (string * JsonValue))
    : option JsonValue :=
  match o with
  | [] => None
  | (k, v) :: o' => if String.eqb k key then Some v else get_own key o'
  end.

Fixpoint replace_own (key : string) (value : JsonValue)
    (o : list (string * JsonValue)) : list (string * JsonValue) :=
  match o with
  | [] => []
  | (k, v) :: o' =>
      if String.eqb k key then (k, value) :: o'
      else (k, v) :: replace_own key value o'
  end.

Fixpoint insert_index (i : N) (key : string) (value : JsonValue)
    (o : list (string * JsonValue)) : list (string * JsonValue) :=
  match o with
  | [] => [(key, value)]
  | (k, v) :: o' =>
      match array_index k with
      | Some j =>
          if (j <? i)%N then (k, v) :: insert_index i key value o'
          else (key, value) :: o
      | None => (key, value) :: o
      end
  end.

(** [o[key] = value] on an object that inherits from [Object.prototype],
    as seen in its own properties.  An own property is overwritten.  A key
    that is not an own property is looked up on the prototype: [__proto__]
    is an accessor there, so the assignment runs its setter (which changes
    the prototype when the value is an object or [null], and nothing
    otherwise) and creates no own property.  Every other new key becomes
    an own property, array-index keys in ascending order before the
    others. *)
Definition set_property (key : string) (value : JsonValue)
    (o : list (string * JsonValue)) : list (string * JsonValue) :=
  match get_own key o with
  | Some _ => replace_own key value o
  | None =>
      if String.eqb key "__proto__" then o
      else
        match array_index key with
        | Some i => insert_index i key value o
        | None => o ++ [(key, value)]
        end
  end.

(** [RESERVED_KEYS] *)
Definition RESERVED_KEYS : gset string :=
  list_to_set ["level"; "time"; "pid"; "hostname"; "msg"; "err"; "v"].

(** The object [extractException] returns. *)
Record ExceptionData := {
  exception : string;
  exceptionType : string;
  exceptionMessage : string
}.

(** [extractException(obj)] *)
Definition extractException (obj : Pino.PinoLogObject)
    : option ExceptionData :=
  match Pino.err obj with
  | None => None
  | Some err =>
      Some {| exception := default (err_string err) (err_stack err);
              exceptionType :=
                default (default "Error" (err_constructor_name err))
                        (err_type err);
              exceptionMessage :=
                default (err_string err) (err_message err) |}
  end.

(** [Object.assign(data, exceptionData)] *)
Definition assign_exception (data : list (string * JsonValue))
    (x : ExceptionData) : list (string * JsonValue) :=
  set_property "exceptionMessage" (JString (exceptionMessage x))
    (set_property "exceptionType" (JString (exceptionType x))
       (set_property "exception" (JString (exception x)) data)).

Definition error_entries (err : PinoError) : list (string * JsonValue) :=
  omap (fun '(k, v) => option_map (fun s => (k, JString s)) v)
       [("type", err_type err); ("message", err_message err);
        ("stack", err_stack err)].

(** [Object.entries(obj)]: the named properties that are present, then the
    additional ones. *)
Definition entries (obj : Pino.PinoLogObject) : list (string * JsonValue) :=
  [("level", JNumber (Pino.level obj)); ("time", JNumber (Pino.time obj));
   ("pid", JNumber (Pino.pid obj)); ("hostname", JString (Pino.hostname obj))]
  ++ omap (fun '(k, v) => option_map (fun x => (k, x)) v)
       [("msg", option_map JString (Pino.msg obj));
        ("err", option_map (fun e => JObject (error_entries e)) (Pino.err obj));
        ("traceId", option_map JString (Pino.traceId obj));
        ("spanId", option_map JString (Pino.spanId obj))]
  ++ Pino.rest obj.

(** The test of the copy loop of [formatEvent]. *)
Definition copied (key : string) : bool :=
  negb (bool_decide (key ∈ RESERVED_KEYS))
  && negb (String.eqb key "traceId") && negb (String.eqb key "spanId").

(** The copy loop of [formatEvent]. *)
Definition copy_properties (es : list (string * JsonValue))
    (data : list (string * JsonValue)) : list (string * JsonValue) :=
  fold_left
    (fun data '(key, value) =>
       if copied key then set_property key value data else data)
    es data.

(** The [data] object of [formatEvent] before the copy loop: the three
    fixed properties, the exception data, the trace context. *)
Definition base_data (obj : Pino.PinoLogObject)
    (levelName : Pino.PinoLevelName) : list (string * JsonValue) :=
  let data :=
    [("level", JString (level_name levelName));
     ("pid", JNumber (Pino.pid obj));
     ("hostname", JString (Pino.hostname obj))] in
  let data :=
    match extractException obj with
    | Some exceptionData => assign_exception data exceptionData
    | None => data
    end in
  let data :=
    if truthy (Pino.traceId obj)
    then set_property "traceId"
           (JString (default EmptyString (Pino.traceId obj))) data
    else data in
  if truthy (Pino.spanId obj)
  then set_property "spanId"
         (JString (default EmptyString (Pino.spanId obj))) data
  else data.

Section Formatting.

(** [new Date(time).toISOString()] for a time value in range. *)
Variable Date_toISOString : Z -> string.

(** [timestampToISO(time)]: a time value beyond 8.64e15 ms makes an invalid
    date, on which [toISOString] throws a [RangeError]. *)
Definition timestampToISO (time : Z) : Completion JsError string :=
  if (Z.abs time <=? 8640000000000000)%Z then
    Returned (Date_toISOString time)
  else
    Threw {| name := "RangeError"; error_message := "Invalid time value";
             code := None |}.

(** [formatEvent(obj, application)] *)
Definition formatEvent (obj : Pino.PinoLogObject) (application : string)
    : Completion JsError QuickSearchEvent :=
  let type := mapLevelToType (Pino.level obj) in
  let levelName := mapLevelToName (Pino.level obj) in
  match timestampToISO (Pino.time obj) with
  | Threw e => Threw e
  | Returned timestamp =>
      let message := default EmptyString (Pino.msg obj) in
      let data := base_data obj levelName in
      let data := copy_properties (entries obj) data in
      Returned {| type := type; application := application;
                  timestamp := timestamp; message := message;
                  data := data |}
  end.

Variable config : Config.

(** One turn of the loop of [processLogs]: the level check, [formatEvent],
    [addToBuffer]; the [catch] only logs. *)
Definition processLog (obj : Pino.PinoLogObject) : Sync unit :=
  if negb (meetsMinimumLevel (Pino.level obj) (minimumLevel config)) then
    mret tt
  else
    match formatEvent obj (cfg_application config) with
    | Returned event => addToBuffer config event
    | Threw _ => mret tt
    end.

(** [processLogs(source)] over the records the source yields. *)
Fixpoint processLogs (source : list Pino.PinoLogObject) : Sync unit :=
  match source with
  | [] => mret tt
  | obj :: source' => processLog obj;; processLogs source'
  end.

(** The events [processLogs] enqueues: those of the records that pass the
    level check and that [formatEvent] formats. *)
Definition accepted (source : list Pino.PinoLogObject)
    : list QuickSearchEvent :=
  omap
    (fun obj =>
       if meetsMinimumLevel (Pino.level obj) (minimumLevel config) then
         match formatEvent obj (cfg_application config) with
         | Returned event => Some event
         | Threw _ => None
         end
       else None)
    source.

End Formatting.

(** ** Accounting over calls and observations *)

Definition total (delays : list Z) : Z := foldr Z.add 0%Z delays.

Definition is_close (call : Call) : bool :=
  match call with
  | Close => true
  | _ => false
  end.

(** The events the calls enqueue, in order. *)
Definition enqueued (calls : list Call) : list QuickSearchEvent :=
  omap (fun call => match call with Enqueue event => Some event | _ => None end)
       calls.

Definition settles (calls : list Call) : nat :=
  length (filter (fun call => is_settle call = true) calls).

Definition intervals_cleared (obs : list Obs) : nat :=
  length (omap (fun o => match o with IntervalCleared => Some tt | _ => None end)
               obs).

(** A sample record and a sample clock. *)
Definition sample_record : Pino.PinoLogObject :=
  {| Pino.level := 30; Pino.time := 1703937600000; Pino.pid := 12345;
     Pino.hostname := "test-server"; Pino.msg := Some "User action";
     Pino.err := None; Pino.traceId := None; Pino.spanId := None;
     Pino.rest := [("userId", JString "user-123"); ("v", JNumber 1)] |}.

(** A record parsed from a line with a [__proto__] member: [JSON.parse]
    makes it an own property of the record. *)
Definition proto_record : Pino.PinoLogObject :=
  {| Pino.level := 30; Pino.time := 1703937600000; Pino.pid := 12345;
     Pino.hostname := "test-server"; Pino.msg := Some "User action";
     Pino.err := None; Pino.traceId := None; Pino.spanId := None;
     Pino.rest := [("__proto__", JString "x");
                   ("userId", JString "user-123")] |}.

Definition sample_clock (time : Z) : string := string_of_Z time.

(** A server that fails three times with HTTP 500 and then answers. *)
Definition down_then_up (k : nat) : FetchOutcome :=
  if k <? 3 then FetchResolved 500 None (BodyJson sample_response)
  else FetchResolved 200 None (BodyJson sample_response).

(** The sample transport after three enqueues: the first two are in
    flight, the third is buffered. *)
Definition busy_system : System :=
  (run small_batch_config (started small_batch_config)
     (map Enqueue [sample_event "a"; sample_event "b"; sample_event "c"])).1.

(** Unfolding of the [Sync] operations. *)
Ltac sync :=
  cbv [store shift push splice0 set_buffer set_flushing set_closed
       set_flushTimer mbind mret Sync_bind Sync_ret get put emit
       state_after observed fst snd].

(** * Properties *)

(** ** The retry loop *)

Section ClientProperties.

Variable JSON_stringify : QuickSearchEvent -> string.
Variable c : QuickSearchHttpClient.

#[local] Abbreviation J := JSON_stringify.

(** Attempts [a], [a+1], ..., [a+j-1] with the sleeps between them. *)
Fixpoint alternation (req : Request) (a j : nat) : list IO :=
  match j with
  | 0 => []
  | S j' =>
      Fetch req ::
      match j' with
      | 0 => []
      | S _ => Sleep (retryDelay c * 2 ^ Z.of_nat a) :: alternation req (S a) j'
      end
  end.

Lemma alternation_fetches req a j :
  fetches (alternation req a j) = replicate j req.
Proof.
  revert a; induction j as [|j IH]; intros a; [done|].
  cbn [alternation]. destruct j as [|j]; [done|].
  cbn [fetches omap list_omap]. fold (fetches (alternation req (S a) (S j))).
  by rewrite IH.
Qed.

Lemma alternation_length req a j :
  length (alternation req a j) = 2 * j - 1.
Proof.
  revert a; induction j as [|j IH]; intros a; [done|].
  cbn [alternation]. destruct j as [|j]; [done|].
  cbn [length]. rewrite IH. lia.
Qed.

Lemma alternation_fetch req a j i :
  i < j -> alternation req a j !! (2 * i) = Some (Fetch req).
Proof.
  revert a i; induction j as [|j IH]; intros a i Hi; [lia|].
  cbn [alternation]. destruct i as [|i]; [done|].
  destruct j as [|j]; [lia|].
  replace (2 * S i) with (S (S (2 * i))) by lia.
  cbn [lookup list_lookup]. apply IH. lia.
Qed.

Lemma alternation_sleep req a j i :
  S i < j ->
  alternation req a j !! (2 * i + 1)
  = Some (Sleep (retryDelay c * 2 ^ Z.of_nat (a + i))).
Proof.
  revert a i; induction j as [|j IH]; intros a i Hi; [lia|].
  cbn [alternation]. destruct j as [|j]; [lia|].
  destruct i as [|i].
  - cbn. by rewrite Nat.add_0_r.
  - replace (2 * S i + 1) with (S (S (2 * i + 1))) by lia.
    cbn [lookup list_lookup]. rewrite IH by lia.
    by replace (S a + i) with (a + S i) by lia.
Qed.

Lemma alternation_sleep_inv req a j p ms :
  alternation req a j !! p = Some (Sleep ms) ->
  exists i, S i < j /\ p = 2 * i + 1.
Proof.
  revert a p; induction j as [|j IH]; intros a p Hp; [done|].
  cbn [alternation] in Hp. destruct p as [|p]; [done|].
  destruct j as [|j]; [done|].
  destruct p as [|p].
  - exists 0. split; lia.
  - cbn [lookup list_lookup] in Hp. apply IH in Hp as (i & Hi & ->).
    exists (S i). split; lia.
Qed.

Lemma alternation_last req a j :
  0 < j -> last (alternation req a j) = Some (Fetch req).
Proof.
  revert a; induction j as [|j IH]; intros a Hj; [lia|].
  cbn [alternation]. destruct j as [|j]; [done|].
  rewrite last_cons, last_cons.
  rewrite (IH (S a)) by lia. done.
Qed.

Lemma retry_loop_shape event net m a lastError :
  a + m = S (retryAttempts c) ->
  exists j,
    j <= m /\ (0 < m -> 0 < j) /\
    (retry_loop J c event net (seq a m) lastError).1
      = alternation (request J c event) a j /\
    forall e,
      (retry_loop J c event net (seq a m) lastError).2 = Exhausted e ->
      j = m /\ (m = 0 -> e = lastError) /\
      (0 < m -> exists err,
         e = Some err /\
         (sendEvent J c event (net (retryAttempts c))).2 = Threw err /\
         isNonRetryableError err = false).
Proof.
  revert a lastError. induction m as [|m IH]; intros a lastError Ha.
  - exists 0. cbn. split; [lia|]. split; [lia|]. split; [done|].
    intros e [= <-]. split; [done|]. split; [done|lia].
  - cbn [seq retry_loop].
    assert (Hreq : (sendEvent J c event (net a)).1 = request J c event) by done.
    destruct (sendEvent J c event (net a)) as [rq result] eqn:E.
    cbn in Hreq; subst rq.
    destruct result as [r|error].
    { exists 1. cbn. split; [lia|]. split; [lia|]. by split. }
    destruct (isNonRetryableError error) eqn:Hnr.
    { exists 1. cbn. split; [lia|]. split; [lia|]. by split. }
    destruct (a <? retryAttempts c) eqn:Hlt.
    + apply Nat.ltb_lt in Hlt.
      destruct (IH (S a) (Some error)) as (j & Hj & Hpos & Hio & Hout); [lia|].
      destruct (retry_loop J c event net (seq (S a) m) (Some error))
        as [io out].
      cbn [fst snd] in *. exists (S j).
      destruct j as [|j]; [lia|]. subst io.
      split; [lia|]. split; [lia|]. split; [done|].
      intros e He. destruct (Hout e He) as (-> & _ & Herr).
      split; [done|]. split; [lia|]. intros _. apply Herr. lia.
    + apply Nat.ltb_ge in Hlt.
      assert (m = 0) as -> by lia. assert (a = retryAttempts c) as -> by lia.
      exists 1. cbn [retry_loop fst snd alternation].
      split; [lia|]. split; [lia|]. split; [done|].
      intros e [= <-]. split; [done|]. split; [lia|].
      intros _. exists error. by rewrite E.
Qed.

(** Every [fetch] of the loop is given the request of the event. *)
Lemma sendEventWithRetry_requests event net :
  Forall (eq (request J c event))
         (fetches (sendEventWithRetry J c event net).1).
Proof.
  unfold sendEventWithRetry.
  destruct (retry_loop_shape event net (S (retryAttempts c)) 0 None)
    as (j & _ & _ & -> & _); [lia|].
  rewrite alternation_fetches. by apply Forall_replicate.
Qed.

(** C1.  [sendEventWithRetry] calls [fetch] at least once and at most
    [retryAttempts + 1] times, always with the request of the event.  The
    trace alternates attempts and sleeps: attempt [k >= 1] sits at position
    [2k], and right before it, at position [2k-1], the loop sleeps
    [retryDelay * 2^(k-1)].  Every sleep is one of these, so it has an
    attempt on both sides, and the trace ends with an attempt.  When the
    loop runs out of attempts it has made all [retryAttempts + 1] of them
    and throws the error of the last one. *)
Theorem sendEventWithRetry_attempts_and_backoff
    (event : QuickSearchEvent) (net : nat -> FetchOutcome) :
  let io := (sendEventWithRetry J c event net).1 in
  let out := (sendEventWithRetry J c event net).2 in
  let n := length (fetches io) in
  1 <= n <= retryAttempts c + 1 /\
  fetches io = replicate n (request J c event) /\
  length io = 2 * n - 1 /\
  io !! 0 = Some (Fetch (request J c event)) /\
  (forall k, 1 <= k < n ->
     io !! (2 * k - 1)
       = Some (Sleep (retryDelay c * 2 ^ (Z.of_nat k - 1))) /\
     io !! (2 * k) = Some (Fetch (request J c event))) /\
  (forall p ms, io !! p = Some (Sleep ms) ->
     exists k, 1 <= k < n /\ p = 2 * k - 1) /\
  last io = Some (Fetch (request J c event)) /\
  (forall e, out = Exhausted e ->
     n = retryAttempts c + 1 /\
     exists err,
       e = Some err /\
       (sendEvent J c event (net (retryAttempts c))).2 = Threw err).
Proof.
  unfold sendEventWithRetry.
  destruct (retry_loop_shape event net (S (retryAttempts c)) 0 None)
    as (j & Hj & Hpos & Hio & Hout); [lia|].
  cbn zeta. rewrite Hio.
  rewrite alternation_fetches, length_replicate.
  assert (0 < j) by (apply Hpos; lia).
  split; [lia|]. split; [done|].
  split; [apply alternation_length|].
  split; [by apply (alternation_fetch _ 0 j 0)|].
  split.
  { intros k Hk. split.
    - replace (2 * k - 1) with (2 * (k - 1) + 1) by lia.
      rewrite alternation_sleep by lia.
      by replace (Z.of_nat (0 + (k - 1))) with (Z.of_nat k - 1)%Z by lia.
    - apply alternation_fetch. lia. }
  split.
  { intros p ms Hp. apply alternation_sleep_inv in Hp as (i & Hi & ->).
    exists (S i). split; lia. }
  split; [by apply alternation_last|].
  intros e He. destruct (Hout e He) as (-> & _ & err & -> & Herr & _); [lia|].
  split; [lia|]. by exists err.
Qed.

Lemma in_range (lo n s : nat) : lo <= s < lo + n -> In s (seq lo n).
Proof. intros. apply in_seq. lia. Qed.

Lemma client_errors_non_retryable status text :
  400 <= status <= 499 -> status <> 429 ->
  isNonRetryableError (http_error status text) = true.
Proof.
  intros Hs Hne.
  assert (H : forallb (fun s => (s =? 429)
                || isNonRetryableError (http_error s None)) (seq 400 100)
              = true) by (vm_compute; reflexivity).
  rewrite forallb_forall in H.
  specialize (H status (in_range 400 100 status ltac:(lia))).
  apply orb_true_iff in H as [H|H]; [apply Nat.eqb_eq in H; lia|exact H].
Qed.

Lemma server_errors_retryable status text :
  is_server_error status = true ->
  isNonRetryableError (http_error status text) = false.
Proof.
  intros Hs. unfold is_server_error in Hs.
  apply andb_true_iff in Hs as [H1 H2].
  apply Nat.leb_le in H1, H2.
  assert (H : forallb (fun s => negb (isNonRetryableError (http_error s None)))
                (seq 500 100) = true) by (vm_compute; reflexivity).
  rewrite forallb_forall in H.
  specialize (H status (in_range 500 100 status ltac:(lia))).
  by apply negb_true_iff in H.
Qed.

Lemma not_ok_from_400 status : 400 <= status -> ok status = false.
Proof.
  intros. unfold ok. apply andb_false_iff. right. apply Nat.leb_gt. lia.
Qed.

(** C2.  When the first attempt is answered with a status in [400,499]
    other than 429, [sendEvent] throws the HTTP error of that status and
    [sendEventWithRetry] rethrows this very error from inside the loop:
    its whole trace is the one [fetch], with no sleep and no second
    attempt. *)
Theorem client_error_aborts_at_once
    (event : QuickSearchEvent) (net : nat -> FetchOutcome)
    (status : nat) (text : option string) (json : BodyRead) :
  400 <= status <= 499 -> status <> 429 ->
  net 0 = FetchResolved status text json ->
  (sendEvent J c event (net 0)).2 = Threw (http_error status text) /\
  sendEventWithRetry J c event net
    = ([Fetch (request J c event)], Aborted (http_error status text)).
Proof.
  intros Hs Hne Hnet.
  unfold sendEventWithRetry. cbn [seq retry_loop].
  unfold sendEvent. rewrite Hnet, not_ok_from_400 by lia.
  cbn [negb try_catch on_error http_error name String.eqb Ascii.eqb Bool.eqb].
  fold (http_error status text).
  by rewrite client_errors_non_retryable.
Qed.

Lemma timeoutError_retryable : isNonRetryableError (timeoutError c) = false.
Proof. reflexivity. Qed.

(** Every failure of a retryable class makes [sendEvent] throw an error
    that [isNonRetryableError] lets through. *)
Lemma retryable_failure_thrown event o :
  retryable_failure o = true ->
  exists err,
    (sendEvent J c event o).2 = Threw err /\
    isNonRetryableError err = false /\
    (forall text json, o = FetchResolved 429 text json ->
       err = http_error 429 text).
Proof.
  unfold retryable_failure, sendEvent. intros H.
  destruct o as [status text json|e]; cbn [snd try_catch].
  - cbn [is_timeout is_network_failure has_status orb] in H.
    destruct (ok status) eqn:Hok; cbn [negb].
    + assert (Hlow : status <= 299).
      { unfold ok in Hok. apply andb_true_iff in Hok as [_ Hok].
        by apply Nat.leb_le in Hok. }
      assert (Hcl : (429 =? status) || is_server_error status = false).
      { apply orb_false_iff. split; [apply Nat.eqb_neq; lia|].
        unfold is_server_error. apply andb_false_iff. left.
        apply Nat.leb_gt. lia. }
      rewrite <- orb_assoc, Hcl, !orb_false_r in H.
      destruct json as [r|e]; [done|].
      cbn [andb] in H. unfold on_error. unfold is_abort in H.
      cbn [try_catch]. rewrite H.
      exists (timeoutError c). split; [done|]. split; [done|].
      intros text' json' [= -> _ _]. lia.
    + exists (http_error status text). split; [done|].
      assert (Hcl : (429 =? status) || is_server_error status = true).
      { destruct json; cbn [andb orb] in H; exact H. }
      split.
      * apply orb_true_iff in Hcl as [Hcl|Hcl].
        -- apply Nat.eqb_eq in Hcl. subst status. reflexivity.
        -- by apply server_errors_retryable.
      * by intros text' json' [= -> -> _].
  - cbn [is_timeout is_network_failure has_status] in H.
    rewrite !orb_false_r in H. unfold on_error.
    destruct (is_abort e) eqn:Hab; unfold is_abort in Hab; rewrite Hab.
    + exists (timeoutError c). by repeat split.
    + exists e. split; [done|]. split; [|done].
      cbn [orb] in H. unfold is_network_error in H.
      apply andb_true_iff in H as [_ H]. apply bool_decide_eq_true in H.
      unfold isNonRetryableError. by rewrite H.
Qed.

Lemma retry_loop_exhausts event net m a lastError :
  (forall k, a <= k < a + m -> retryable_failure (net k) = true) ->
  exists e, (retry_loop J c event net (seq a m) lastError).2 = Exhausted e.
Proof.
  revert a lastError. induction m as [|m IH]; intros a lastError Hnet.
  - by exists lastError.
  - cbn [seq retry_loop].
    destruct (retryable_failure_thrown event (net a)) as (err & Hthrow & Hnr & _).
    { apply Hnet. lia. }
    destruct (sendEvent J c event (net a)) as [rq result].
    cbn [snd] in Hthrow. subst result. rewrite Hnr.
    destruct (IH (S a) (Some err)) as [e He].
    { intros k Hk. apply Hnet. lia. }
    destruct (retry_loop J c event net (seq (S a) m) (Some err)) as [io out].
    cbn [snd] in He. subst out.
    exists e. by destruct (a <? retryAttempts c).
Qed.

Lemma alternation_sleeps req a j :
  sleeps (alternation req a j)
  = map (fun k => (retryDelay c * 2 ^ Z.of_nat k)%Z) (seq a (j - 1)).
Proof.
  revert a; induction j as [|j IH]; intros a; [done|].
  cbn [alternation]. destruct j as [|j]; [done|].
  cbn [sleeps omap list_omap]. fold (sleeps (alternation req (S a) (S j))).
  rewrite IH. cbn. by rewrite Nat.sub_0_r.
Qed.

(** C3.  When every attempt fails with a timeout, a network-level failure,
    HTTP 429 or a 5xx, the loop makes all [retryAttempts + 1] attempts,
    sleeping [retryDelay], [2 retryDelay], ... between them, and leaves by
    the [throw lastError] after the loop with the error of the last attempt,
    an error [isNonRetryableError] lets through.  When that last answer is
    HTTP 429 the error thrown is the HTTP 429 error. *)
Theorem retryable_failures_exhaust
    (event : QuickSearchEvent) (net : nat -> FetchOutcome) :
  (forall k, k <= retryAttempts c -> retryable_failure (net k) = true) ->
  exists err,
    (sendEvent J c event (net (retryAttempts c))).2 = Threw err /\
    isNonRetryableError err = false /\
    (sendEventWithRetry J c event net).2 = Exhausted (Some err) /\
    length (fetches (sendEventWithRetry J c event net).1)
      = retryAttempts c + 1 /\
    sleeps (sendEventWithRetry J c event net).1
      = map (fun k => (retryDelay c * 2 ^ Z.of_nat k)%Z)
            (seq 0 (retryAttempts c)) /\
    (forall text json,
       net (retryAttempts c) = FetchResolved 429 text json ->
       err = http_error 429 text).
Proof.
  intros Hnet. unfold sendEventWithRetry.
  destruct (retry_loop_exhausts event net (S (retryAttempts c)) 0 None)
    as [e He].
  { intros k Hk. apply Hnet. lia. }
  destruct (retry_loop_shape event net (S (retryAttempts c)) 0 None)
    as (j & _ & _ & Hio & Hout); [lia|].
  destruct (Hout e He) as (-> & _ & Herr).
  destruct Herr as (err & -> & Hthrow & Hnr); [lia|].
  exists err. rewrite Hio, He, alternation_fetches, alternation_sleeps.
  rewrite length_replicate. cbn [Nat.sub]. rewrite Nat.sub_0_r.
  split; [done|]. split; [done|]. split; [done|]. split; [lia|].
  split; [done|].
  intros text json Hlast.
  destruct (retryable_failure_thrown event (net (retryAttempts c)))
    as (err' & Hthrow' & _ & H429); [by apply Hnet|].
  rewrite Hthrow in Hthrow'. injection Hthrow' as <-. by eapply H429.
Qed.

(** C7.  [sendEvents] always returns normally, whatever the network does
    to the sends, [Promise.all] rejecting or not; it starts one
    [sendEventWithRetry] per event, and for the empty list it returns at
    once without any send. *)
Theorem sendEvents_never_throws
    (net : nat -> nat -> FetchOutcome) (instant : nat -> nat)
    (events : list QuickSearchEvent) :
  (sendEvents J c net instant events).2 = Returned tt /\
  (sendEvents J c net instant events).1
    = map fst (send_each J c net events) /\
  length (sendEvents J c net instant events).1 = length events /\
  sendEvents J c net instant [] = ([], Returned tt).
Proof.
  unfold sendEvents, send_each.
  destruct events as [|event events]; [done|].
  cbn [length Nat.eqb fst snd].
  split; [|split; [done|split; [|done]]].
  - by destruct (Promise_all _ _).
  - by rewrite length_map, length_imap.
Qed.

End ClientProperties.

(** [Promise.all] does reject when a send fails, and [sendEvents] absorbs
    it: two events, every attempt answered with HTTP 429. *)
Example sendEvents_absorbs_rejection :
  let outs :=
    map snd (send_each message_only sample_client (fun _ => always rate_limited)
               [sample_event "a"; sample_event "b"]) in
  Promise_all id outs = Threw (Some (http_error 429 None)) /\
  (sendEvents message_only sample_client (fun _ => always rate_limited) id
     [sample_event "a"; sample_event "b"]).2 = Returned tt.
Proof. split; reflexivity. Qed.

(** Three HTTP 500 answers, then success, with [retryAttempts = 3] and
    [retryDelay = 1000]: four attempts, delays of 1000, 2000 and 4000. *)
Example three_failures_then_success :
  let net k :=
    if k <? 3 then FetchResolved 500 None (BodyJson sample_response)
    else FetchResolved 200 None (BodyJson sample_response) in
  let run := sendEventWithRetry message_only sample_client
               (sample_event "hi") net in
  run.2 = Delivered sample_response /\
  length (fetches run.1) = 4 /\
  sleeps run.1 = [1000; 2000; 4000]%Z.
Proof. repeat split; reflexivity. Qed.

Lemma client_error_aborts_at_once_witness :
  (sendEvent message_only sample_client (sample_event "hi")
     (always not_found 0)).2
    = Threw (http_error 404 (Some "Not Found")) /\
  sendEventWithRetry message_only sample_client (sample_event "hi")
    (always not_found)
    = ([Fetch (request message_only sample_client (sample_event "hi"))],
       Aborted (http_error 404 (Some "Not Found"))).
Proof.
  apply (client_error_aborts_at_once message_only sample_client
           (sample_event "hi") (always not_found) 404 (Some "Not Found")
           (BodyJson sample_response)); [lia | lia | reflexivity].
Defined.

Lemma retryable_failures_exhaust_witness :
  exists err,
    (sendEvent message_only sample_client (sample_event "hi")
       (always rate_limited 3)).2 = Threw err /\
    isNonRetryableError err = false /\
    (sendEventWithRetry message_only sample_client (sample_event "hi")
       (always rate_limited)).2 = Exhausted (Some err) /\
    length (fetches (sendEventWithRetry message_only sample_client
                       (sample_event "hi") (always rate_limited)).1) = 3 + 1 /\
    sleeps (sendEventWithRetry message_only sample_client
              (sample_event "hi") (always rate_limited)).1
      = map (fun k => (1000 * 2 ^ Z.of_nat k)%Z) (seq 0 3) /\
    (forall text json,
       always rate_limited 3 = FetchResolved 429 text json ->
       err = http_error 429 text).
Proof.
  apply (retryable_failures_exhaust message_only sample_client
           (sample_event "hi") (always rate_limited)).
  intros k _. reflexivity.
Defined.

(** ** The request of a delivery attempt *)

Lemma strip_trailing_slash_app s : strip_trailing_slash (s +:+ "/") = s.
Proof.
  induction s as [|a s IH]; [done|].
  destruct s as [|b s]; [done|].
  change (String a (strip_trailing_slash (String b s +:+ "/"))
          = String a (String b s)).
  by rewrite IH.
Qed.

Lemma strip_trailing_slash_id s :
  (forall t, s <> t +:+ "/") -> strip_trailing_slash s = s.
Proof.
  induction s as [|a s IH]; intros Hs; [done|].
  cbn [strip_trailing_slash]. destruct s as [|b s].
  - destruct (Ascii.eqb a "/") eqn:Ha; [|done].
    apply Ascii.eqb_eq in Ha. subst a. by destruct (Hs EmptyString).
  - rewrite IH; [done|]. intros t Ht. apply (Hs (String a t)).
    cbn [String.append]. by rewrite Ht.
Qed.

Section RequestProperties.

Variable JSON_stringify : QuickSearchEvent -> string.

(** C9, as the code has it.  Every attempt hands [fetch] the same request:
    method POST, the URL made of [serverUrl] without its trailing slash (if
    it has one) followed by [/api/events], the header
    [Content-Type: application/json], and the JSON of the event as body.  It
    carries [Authorization: Bearer apiKey] exactly when an API key is set
    and is not the empty string, and no [Authorization] header otherwise. *)
Theorem delivery_request
    (options : HttpClientOptions) (event : QuickSearchEvent) :
  let c := new_client options in
  let req := request JSON_stringify c event in
  (forall net, (sendEvent JSON_stringify c event net).1 = req) /\
  (forall net,
     Forall (eq req) (fetches (sendEventWithRetry JSON_stringify c event net).1)) /\
  method req = "POST" /\
  url req = strip_trailing_slash (opt_serverUrl options) +:+ "/api/events" /\
  (forall s, opt_serverUrl options = s +:+ "/" ->
     url req = s +:+ "/api/events") /\
  ((forall s, opt_serverUrl options <> s +:+ "/") ->
     url req = opt_serverUrl options +:+ "/api/events") /\
  headers req !! "Content-Type" = Some "application/json" /\
  body req = JSON_stringify event /\
  (forall v, headers req !! "Authorization" = Some v <->
     exists key, opt_apiKey options = Some key /\ key <> EmptyString
                 /\ v = "Bearer " +:+ key).
Proof.
  cbn zeta. split; [done|]. split.
  { intros net. apply sendEventWithRetry_requests. }
  split; [done|]. split; [done|]. split.
  { intros s Hs. cbn. by rewrite Hs, strip_trailing_slash_app. }
  split.
  { intros Hs. cbn. by rewrite strip_trailing_slash_id. }
  cbn [request headers body]. unfold getHeaders. cbn [new_client apiKey].
  destruct (opt_apiKey options) as [[|a key]|]; cbn [truthy default].
  - split; [done|]. split; [done|]. intros v. split.
    + by rewrite lookup_singleton_ne.
    + by intros (key & [= <-] & Hkey & _).
  - split; [by rewrite lookup_insert_ne|]. split; [done|].
    intros v. rewrite lookup_insert_eq. split.
    + intros [= <-]. by exists (String a key).
    + by intros (key' & [= <-] & _ & ->).
  - split; [done|]. split; [done|]. intros v. split.
    + by rewrite lookup_singleton_ne.
    + by intros (key & [=] & _).
Qed.

End RequestProperties.

(** C9 as stated fails: with [serverUrl] set to [http://localhost:3000/]
    the request goes to [http://localhost:3000/api/events], which is not
    [serverUrl] followed by [/api/events]; and the API key [''], though
    configured, yields no [Authorization] header. *)
Lemma delivery_request_counterexample :
  url (sendEvent message_only (new_client slash_options)
         (sample_event "hi") not_found).1
    = "http://localhost:3000/api/events" /\
  url (sendEvent message_only (new_client slash_options)
         (sample_event "hi") not_found).1
    <> opt_serverUrl slash_options +:+ "/api/events" /\
  opt_apiKey slash_options = Some EmptyString /\
  headers (sendEvent message_only (new_client slash_options)
             (sample_event "hi") not_found).1 !! "Authorization" = None.
Proof. split; [done|]. split; [done|]. split; [done|]. done. Qed.

(** ** Level filtering *)

Lemma own_level_names key :
  MIN_LEVEL_VALUES !! key = None <-> key ∉ level_names.
Proof. unfold MIN_LEVEL_VALUES. by rewrite <- not_elem_of_list_to_map. Qed.

(** A name that is neither a level name nor a property inherited from
    [Object.prototype] gets the trace value, so the filter lets through
    every level from 10 up. *)
Lemma getLevelValue_default (levelName : string) :
  toLowerCase levelName ∉ level_names ->
  Object_prototype !! toLowerCase levelName = None ->
  getLevelValue levelName = JsNum 10 /\
  forall level, meetsMinimumLevel level levelName = (10 <=? level)%Z.
Proof.
  intros Hown Hproto. apply own_level_names in Hown.
  assert (H : getLevelValue levelName = JsNum 10).
  { unfold getLevelValue, get_property. by rewrite Hown, Hproto. }
  split; [done|]. intros level. unfold meetsMinimumLevel. by rewrite H.
Qed.

(** C10 at the minimum level ['constructor']: the name is none of the six
    level names, yet the property read finds [Object.prototype.constructor],
    [??] keeps it, and the comparison of a level with it is false, where
    the trace value 10 would let level 30 through. *)
Theorem getLevelValue_inherited_property :
  (toLowerCase "constructor" ∉ level_names) /\
  getLevelValue "constructor" = JsFunction "Object" /\
  getLevelValue "constructor" <> JsNum 10 /\
  meetsMinimumLevel 30 "constructor" = false /\
  (10 <=? 30)%Z = true.
Proof.
  split.
  - apply own_level_names. reflexivity.
  - by repeat split.
Qed.

(** ** The buffer manager *)

Section TransportProperties.

Variable config : Config.

Lemma flush_noop st :
  buffer st = [] \/ flushing st = true ->
  flush st = (None, st, [FlushCalled; FlushSettled]).
Proof.
  destruct st as [b t cl f]. cbn [buffer flushing].
  intros [-> | ->]; [reflexivity|]. by destruct b.
Qed.

Lemma flush_starts st :
  buffer st <> [] -> flushing st = false ->
  flush st
  = (Some (buffer st),
     {| buffer := []; flushTimer := flushTimer st;
        closed := closed st; flushing := true |},
     [FlushCalled; Dispatched (buffer st)]).
Proof.
  destruct st as [b t cl f]. cbn [buffer flushing flushTimer closed].
  intros Hb ->. by destruct b.
Qed.

Lemma flush_resume_eq sent st :
  flush_resume sent st
  = (tt,
     {| buffer := buffer st; flushTimer := flushTimer st;
        closed := closed st; flushing := false |},
     [FlushSettled]).
Proof. by destruct sent. Qed.

Lemma store_eq event st :
  store config event st
  = (tt,
     {| buffer :=
          (if queueSizeLimit config <=? length (buffer st)
           then tail (buffer st) else buffer st) ++ [event];
        flushTimer := flushTimer st;
        closed := closed st; flushing := flushing st |},
     []).
Proof.
  sync. by destruct (queueSizeLimit config <=? length (buffer st)).
Qed.

Lemma addToBuffer_eq event st :
  addToBuffer config event st
  = if closed st then (tt, st, [])
    else
      let st1 := state_after (store config event) st in
      if batchSize config <=? length (buffer st1)
      then (tt, state_after flush st1, observed flush st1)
      else (tt, st1, []).
Proof.
  unfold addToBuffer.
  cbv [mbind mret Sync_bind Sync_ret get].
  destruct (closed st); [reflexivity|].
  cbv [state_after observed]. rewrite store_eq. cbn [fst snd].
  match goal with |- context [batchSize config <=? ?n] =>
    destruct (batchSize config <=? n) end; [|reflexivity].
  match goal with |- context [flush ?x] =>
    destruct (flush x) as [[r st2] obs2] end.
  cbn. by rewrite app_nil_r.
Qed.

Lemma close_eq st :
  closed st = false ->
  close st
  = let pre := match flushTimer st with
               | Some _ => [IntervalCleared]
               | None => []
               end in
    if (length (buffer st) =? 0) || flushing st then
      (false,
       {| buffer := buffer st; flushTimer := None;
          closed := true; flushing := flushing st |},
       pre ++ [FlushCalled; FlushSettled; CloseSettled])
    else
      (true,
       {| buffer := []; flushTimer := None;
          closed := true; flushing := true |},
       pre ++ [FlushCalled; Dispatched (buffer st)]).
Proof.
  destruct st as [b t cl f]. cbn [closed buffer flushTimer flushing].
  intros ->. by destruct t, b, f.
Qed.

Lemma close_again st :
  closed st = true -> close st = (false, st, [CloseSettled]).
Proof.
  destruct st as [b t cl f]. cbn [closed]. by intros ->.
Qed.

Lemma step_enqueue s event :
  step config s (Enqueue event)
  = if closed (state s) then (s, [])
    else
      let st1 := state_after (store config event) (state s) in
      if batchSize config <=? length (buffer st1)
      then ({| state := state_after flush st1; closing := closing s |},
            observed flush st1)
      else ({| state := st1; closing := closing s |}, []).
Proof.
  cbn [step]. rewrite addToBuffer_eq. destruct s as [st cl].
  cbn [state closing]. destruct (closed st); [done|].
  cbn zeta. by destruct (batchSize config <=? _).
Qed.

Lemma flush_calls_app obs1 obs2 :
  flush_calls (obs1 ++ obs2) = flush_calls obs1 + flush_calls obs2.
Proof. unfold flush_calls. by rewrite omap_app, length_app. Qed.

Lemma dispatched_app obs1 obs2 :
  dispatched (obs1 ++ obs2) = dispatched obs1 ++ dispatched obs2.
Proof. apply omap_app. Qed.

Lemma run_cons s call calls :
  run config s (call :: calls)
  = ((run config (step config s call).1 calls).1,
     (step config s call).2 ++ (run config (step config s call).1 calls).2).
Proof.
  change (run config s (call :: calls)) with
    (let '(s1, obs1) := step config s call in
     let '(s2, obs2) := run config s1 calls in (s2, obs1 ++ obs2)).
  destruct (step config s call) as [s1 obs1]. cbn [fst snd].
  by destruct (run config s1 calls).
Qed.

(** *** Flushing *)

Lemma flush_buffer st :
  buffer (state_after flush st) = buffer st
  \/ buffer (state_after flush st) = [].
Proof.
  destruct (decide (buffer st <> [] /\ flushing st = false)) as [[Hb Hf]|Hno].
  - right. unfold state_after. by rewrite flush_starts.
  - left. unfold state_after. rewrite flush_noop; [done|].
    destruct (buffer st); [by left|]. destruct (flushing st); [by right|].
    destruct Hno. by split.
Qed.

(** C5.  [flush()] returns at once, leaving the state as it is and handing
    nothing to the dispatcher, when the buffer is empty or a flush is in
    progress.  Otherwise it sets [flushing], empties the buffer in the one
    [splice(0)], hands [sendEvents] exactly the events the buffer held and
    touches nothing else; and when [sendEvents] settles, resolved or
    rejected, the rest of [flush()] clears [flushing] and leaves the buffer
    as it finds it. *)
Theorem flush_contract (st : TransportState) :
  (buffer st = [] \/ flushing st = true ->
     state_after flush st = st /\
     dispatched (observed flush st) = [] /\
     (flush st).1.1 = None) /\
  (buffer st <> [] -> flushing st = false ->
     flushing (state_after flush st) = true /\
     buffer (state_after flush st) = [] /\
     dispatched (observed flush st) = [buffer st] /\
     (flush st).1.1 = Some (buffer st) /\
     closed (state_after flush st) = closed st /\
     flushTimer (state_after flush st) = flushTimer st) /\
  (forall sent st',
     flushing (state_after (flush_resume sent) st') = false /\
     buffer (state_after (flush_resume sent) st') = buffer st' /\
     closed (state_after (flush_resume sent) st') = closed st' /\
     flushTimer (state_after (flush_resume sent) st') = flushTimer st') /\
  (forall s sent,
     flushing (state s) = true ->
     flushing (state (step config s (Settle sent)).1) = false /\
     buffer (state (step config s (Settle sent)).1) = buffer (state s)).
Proof.
  split; [|split; [|split]].
  - intros H. unfold state_after, observed. by rewrite flush_noop.
  - intros Hb Hf. unfold state_after, observed. by rewrite flush_starts.
  - intros sent st'. unfold state_after. by rewrite flush_resume_eq.
  - intros s sent Hf. cbn [step]. rewrite Hf, flush_resume_eq. done.
Qed.

(** *** The bound on the buffer *)

Lemma store_length event st n :
  1 <= n -> queueSizeLimit config <= n -> length (buffer st) <= n ->
  length (buffer (state_after (store config event) st)) <= n.
Proof.
  intros Hn Hlimit Hlen. unfold state_after. rewrite store_eq.
  cbn [fst snd buffer]. rewrite length_app. cbn [length].
  destruct (queueSizeLimit config <=? length (buffer st)) eqn:E.
  - destruct (buffer st); cbn [tail length] in *; lia.
  - apply Nat.leb_gt in E. lia.
Qed.

Lemma flush_length st n :
  length (buffer st) <= n -> length (buffer (state_after flush st)) <= n.
Proof.
  intros H. destruct (flush_buffer st) as [-> | ->]; [done|cbn; lia].
Qed.

Lemma step_bounded s call n :
  1 <= n -> queueSizeLimit config <= n ->
  length (buffer (state s)) <= n ->
  length (buffer (state (step config s call).1)) <= n.
Proof.
  intros Hn Hlimit Hlen. destruct call as [event| | |sent].
  - rewrite step_enqueue. destruct (closed (state s)); [done|].
    cbn zeta. destruct (batchSize config <=? _); cbn [fst state].
    + by apply flush_length, store_length.
    + by apply store_length.
  - cbn [step]. destruct (flushTimer (state s)); [|done].
    pose proof (flush_length (state s) n Hlen) as H.
    unfold state_after in H. by destruct (flush (state s)) as [[? ?] ?].
  - cbn [step]. destruct (closed (state s)) eqn:Hc.
    + by rewrite close_again.
    + rewrite close_eq by done. cbn zeta.
      destruct ((length (buffer (state s)) =? 0) || flushing (state s));
        cbn; [done|lia].
  - cbn [step]. destruct (flushing (state s)); [|done].
    by rewrite flush_resume_eq.
Qed.

Lemma run_bounded calls s n :
  1 <= n -> queueSizeLimit config <= n ->
  length (buffer (state s)) <= n ->
  length (buffer (state (run config s calls).1)) <= n.
Proof.
  intros Hn Hlimit. revert s. induction calls as [|call calls IH]; intros s Hlen.
  - done.
  - rewrite run_cons. cbn [fst]. apply IH. by apply step_bounded.
Qed.

Lemma started_state :
  state (started config)
  = {| buffer := []; flushTimer := Some (flushInterval config);
       closed := false; flushing := false |}.
Proof. reflexivity. Qed.

(** Whatever the configuration, the buffer never holds more than
    [max queueSizeLimit 1] events. *)
Lemma buffer_bounded_by_max calls :
  length (buffer (state (run config (started config) calls).1))
  <= Nat.max (queueSizeLimit config) 1.
Proof.
  apply run_bounded; [lia|lia|]. rewrite started_state. cbn [buffer length].
  lia.
Qed.

Lemma addToBuffer_conserves event st :
  closed st = false ->
  concat (dispatched (observed (addToBuffer config event) st))
    ++ buffer (state_after (addToBuffer config event) st)
  = buffer (state_after (store config event) st).
Proof.
  intros Hc. unfold state_after at 1, observed at 1.
  rewrite addToBuffer_eq, Hc. cbn zeta.
  set (st1 := state_after (store config event) st).
  destruct (batchSize config <=? length (buffer st1)); [|done].
  cbn [fst snd].
  destruct (decide (buffer st1 <> [] /\ flushing st1 = false)) as [[Hb Hf]|Hno].
  - unfold state_after, observed. rewrite flush_starts by done.
    cbn. by rewrite !app_nil_r.
  - unfold state_after, observed. rewrite flush_noop; [done|].
    destruct (buffer st1); [by left|]. destruct (flushing st1); [by right|].
    destruct Hno. by split.
Qed.

(** C4, for a limit of at least one.  From the start of the transport and
    through any calls the buffer never holds more than [queueSizeLimit]
    events.  An enqueue that finds the buffer at the limit drops its first,
    oldest, event and appends the new one: the buffer right after the
    [push] is the old one without its head followed by the event, and what
    [addToBuffer] leaves, handed to the dispatcher or still buffered, is
    exactly that, in this order. *)
Theorem buffer_bounded_drop_oldest :
  1 <= queueSizeLimit config ->
  (forall calls,
     length (buffer (state (run config (started config) calls).1))
     <= queueSizeLimit config) /\
  (forall s calls,
     length (buffer (state s)) <= queueSizeLimit config ->
     length (buffer (state (run config s calls).1)) <= queueSizeLimit config) /\
  (forall st event,
     closed st = false ->
     queueSizeLimit config <= length (buffer st) ->
     buffer (state_after (store config event) st)
       = tail (buffer st) ++ [event] /\
     concat (dispatched (observed (addToBuffer config event) st))
       ++ buffer (state_after (addToBuffer config event) st)
     = tail (buffer st) ++ [event]).
Proof.
  intros Hlimit. split; [|split].
  - intros calls. apply run_bounded; [done|done|].
    rewrite started_state. cbn [buffer length]. lia.
  - intros s calls. by apply run_bounded.
  - intros st event Hc Hfull.
    assert (Hstore : buffer (state_after (store config event) st)
                     = tail (buffer st) ++ [event]).
    { unfold state_after. rewrite store_eq. cbn [fst snd buffer].
      apply Nat.leb_le in Hfull. by rewrite Hfull. }
    split; [done|]. by rewrite addToBuffer_conserves.
Qed.

(** *** Closing *)

Lemma step_shut s call :
  closed (state s) = true -> flushTimer (state s) = None ->
  closed (state (step config s call).1) = true /\
  flushTimer (state (step config s call).1) = None /\
  buffer (state (step config s call).1) = buffer (state s) /\
  flush_calls (step config s call).2 = 0 /\
  dispatched (step config s call).2 = [] /\
  (is_settle call = false -> (step config s call).1 = s).
Proof.
  intros Hc Ht. destruct s as [st cl]. cbn [state] in Hc, Ht.
  destruct call as [event| | |sent].
  - rewrite step_enqueue. cbn [state]. by rewrite Hc.
  - cbn [step state]. by rewrite Ht.
  - cbn [step state closing]. rewrite close_again by done.
    cbn [fst snd state]. by rewrite orb_false_r.
  - cbn [step state closing]. destruct (flushing st); [|done].
    rewrite flush_resume_eq. cbn [fst snd state buffer closed flushTimer].
    by destruct cl.
Qed.

Lemma run_shut calls s :
  closed (state s) = true -> flushTimer (state s) = None ->
  closed (state (run config s calls).1) = true /\
  flushTimer (state (run config s calls).1) = None /\
  buffer (state (run config s calls).1) = buffer (state s) /\
  flush_calls (run config s calls).2 = 0 /\
  dispatched (run config s calls).2 = [] /\
  (forallb (fun call => negb (is_settle call)) calls = true ->
   (run config s calls).1 = s).
Proof.
  revert s. induction calls as [|call calls IH]; intros s Hc Ht; [done|].
  destruct (step_shut s call Hc Ht) as (Hc1 & Ht1 & Hb1 & Hf1 & Hd1 & Hs1).
  destruct (IH _ Hc1 Ht1) as (Hc2 & Ht2 & Hb2 & Hf2 & Hd2 & Hs2).
  rewrite run_cons. cbn [fst snd].
  rewrite flush_calls_app, dispatched_app, Hf1, Hf2, Hd1, Hd2, Hb2, Hb1.
  do 5 (split; [done|]).
  cbn [forallb]. intros [Hcall Hcalls]%andb_true_iff.
  apply negb_true_iff in Hcall. rewrite Hs2 by done. by apply Hs1.
Qed.

Lemma flush_closed st : closed (state_after flush st) = closed st.
Proof.
  destruct (decide (buffer st <> [] /\ flushing st = false)) as [[Hb Hf]|Hno];
    unfold state_after.
  - by rewrite flush_starts.
  - rewrite flush_noop; [done|].
    destruct (buffer st); [by left|]. destruct (flushing st); [by right|].
    destruct Hno. by split.
Qed.

(** A [close()] is only ever suspended on a closed transport. *)
Lemma step_closing s call :
  (closing s = true -> closed (state s) = true) ->
  closing (step config s call).1 = true ->
  closed (state (step config s call).1) = true.
Proof.
  intros Hs. destruct call as [event| | |sent].
  - rewrite step_enqueue. destruct (closed (state s)) eqn:Hc; [done|].
    cbn zeta. destruct (batchSize config <=? _); cbn [fst closing];
      intros Hcl; discriminate (Hs Hcl).
  - cbn [step]. destruct (flushTimer (state s)); [|done].
    pose proof (flush_closed (state s)) as Hf. unfold state_after in Hf.
    destruct (flush (state s)) as [[r st] obs]. cbn [fst snd] in *.
    cbn [closing state]. intros Hcl. rewrite Hf. by apply Hs.
  - cbn [step]. destruct (closed (state s)) eqn:Hc.
    + by rewrite close_again.
    + rewrite close_eq by done. cbn zeta.
      by destruct ((length (buffer (state s)) =? 0) || flushing (state s)).
  - cbn [step]. destruct (flushing (state s)); [|done].
    by rewrite flush_resume_eq.
Qed.

Lemma run_closing calls s :
  (closing s = true -> closed (state s) = true) ->
  closing (run config s calls).1 = true ->
  closed (state (run config s calls).1) = true.
Proof.
  revert s. induction calls as [|call calls IH]; intros s Hs; [done|].
  rewrite run_cons. cbn [fst]. apply IH. by apply step_closing.
Qed.

(** The first [close()], in every state the transport can reach while
    open.  It sets [closed], clears the interval timer and calls [flush()]
    once.  When the buffer holds events and no flush is in progress, that
    call takes the whole buffer and [close()] stays suspended: it has not
    returned, and whatever calls arrive before [sendEvents] settles, it
    returns right after the flush does.  When the buffer is empty, or a
    flush is in progress, the call returns at once and so does [close()]:
    the buffer and the flush in progress are left as they are.  From then
    on the transport stays closed: no call adds to the buffer, calls
    [flush()] or hands anything to the dispatcher; a further [close()]
    returns at once and an enqueue changes nothing. *)
Lemma close_from_open_state (before : list Call) :
  let s := (run config (started config) before).1 in
  closed (state s) = false ->
  let s1 := (step config s Close).1 in
  let obs1 := (step config s Close).2 in
  closed (state s1) = true /\
  flushTimer (state s1) = None /\
  (is_Some (flushTimer (state s)) -> IntervalCleared ∈ obs1) /\
  flush_calls obs1 = 1 /\
  ((buffer (state s) = [] \/ flushing (state s) = true ->
    closing s1 = false /\ dispatched obs1 = [] /\
    buffer (state s1) = buffer (state s) /\
    flushing (state s1) = flushing (state s) /\
    exists pre, obs1 = pre ++ [FlushSettled; CloseSettled])
   /\
   (buffer (state s) <> [] -> flushing (state s) = false ->
    closing s1 = true /\ flushing (state s1) = true /\
    buffer (state s1) = [] /\
    dispatched obs1 = [buffer (state s)] /\
    (CloseSettled ∉ obs1) /\
    forall calls sent,
      forallb (fun call => negb (is_settle call)) calls = true ->
      (step config (run config s1 calls).1 (Settle sent)).2
      = [FlushSettled; CloseSettled])) /\
  (forall calls,
     let s2 := (run config s1 calls).1 in
     let obs2 := (run config s1 calls).2 in
     closed (state s2) = true /\
     buffer (state s2) = buffer (state s1) /\
     flush_calls obs2 = 0 /\
     dispatched obs2 = [] /\
     step config s2 Close = (s2, [CloseSettled]) /\
     forall event, step config s2 (Enqueue event) = (s2, [])).
Proof.
  cbn zeta. intros Hc.
  assert (Hcl : closing (run config (started config) before).1 = false).
  { destruct (closing _) eqn:Hcl; [|done].
    apply run_closing in Hcl; [congruence|done]. }
  revert Hc Hcl. generalize (run config (started config) before).1.
  intros s Hc Hcl.
  assert (Hshut : closed (state (step config s Close).1) = true
                  /\ flushTimer (state (step config s Close).1) = None).
  { cbn [step]. rewrite close_eq by done. cbn zeta.
    by destruct ((length (buffer (state s)) =? 0) || flushing (state s)). }
  destruct Hshut as [Hc1 Ht1].
  split; [done|]. split; [done|]. split; [|split; [|split]].
  - intros [t Ht]. cbn [step]. rewrite close_eq by done. cbn zeta.
    rewrite Ht.
    destruct ((length (buffer (state s)) =? 0) || flushing (state s));
      cbn [snd]; apply elem_of_app; left; apply list_elem_of_singleton; done.
  - cbn [step]. rewrite close_eq by done. cbn zeta.
    destruct ((length (buffer (state s)) =? 0) || flushing (state s));
      cbn [snd]; rewrite flush_calls_app;
      by destruct (flushTimer (state s)).
  - pose proof (run_shut) as Hrun.
    cbn [step] in *. rewrite close_eq in * by done. cbn zeta in *.
    destruct ((length (buffer (state s)) =? 0) || flushing (state s)) eqn:E;
      cbn [fst snd state closing buffer flushing] in *.
    + split.
      * intros _. rewrite Hcl. split; [done|]. split.
        { rewrite dispatched_app. by destruct (flushTimer (state s)). }
        do 2 (split; [done|]).
        exists (match flushTimer (state s) with
                | Some _ => [IntervalCleared]
                | None => []
                end ++ [FlushCalled]).
        by rewrite <- app_assoc.
      * intros Hb Hf. rewrite Hf, orb_false_r in E.
        apply Nat.eqb_eq in E. by destruct (buffer (state s)).
    + apply orb_false_iff in E as [Hb Hf]. split.
      { intros [Hb'|Hf']; [|congruence]. by rewrite Hb' in Hb. }
      intros _ _. rewrite orb_true_r. do 3 (split; [done|]).
      split; [rewrite dispatched_app; by destruct (flushTimer (state s))|].
      split.
      { intros Hin. apply elem_of_app in Hin as [Hin|Hin].
        - destruct (flushTimer (state s)).
          + by apply list_elem_of_singleton in Hin.
          + by apply elem_of_nil in Hin.
        - apply elem_of_cons in Hin as [Hin|Hin]; [done|].
          by apply list_elem_of_singleton in Hin. }
      intros calls sent Hcalls.
      match goal with |- context [run config ?x calls] =>
        destruct (Hrun calls x) as (_ & _ & _ & _ & _ & Hsame); [done|done|]
      end.
      rewrite Hsame by done. by destruct sent.
  - intros calls.
    destruct (run_shut calls _ Hc1 Ht1) as (Hc2 & Ht2 & Hb2 & Hf2 & Hd2 & _).
    do 4 (split; [done|]).
    destruct (run config (step config s Close).1 calls).1 as [st2 cl2].
    cbn [state] in Hc2. split.
    + cbn [step state closing]. rewrite close_again by done.
      by rewrite orb_false_r.
    + intros event. rewrite step_enqueue. cbn [state]. by rewrite Hc2.
Qed.

(** *** The size trigger *)

Lemma flush_cases st :
  (flushing st = true /\ flushing (state_after flush st) = true
   /\ observed flush st = [FlushCalled; FlushSettled])
  \/ (flushing st = false /\ flushing (state_after flush st) = false
      /\ observed flush st = [FlushCalled; FlushSettled])
  \/ (flushing st = false /\ flushing (state_after flush st) = true
      /\ observed flush st = [FlushCalled; Dispatched (buffer st)]).
Proof.
  unfold state_after, observed.
  destruct (flushing st) eqn:Hf.
  - left. rewrite flush_noop; [|by right]. cbn [fst snd]. by rewrite Hf.
  - right. destruct (buffer st) as [|event rest] eqn:Hb.
    + left. rewrite flush_noop; [|by left]. cbn [fst snd]. by rewrite Hf.
    + right. rewrite flush_starts; [by rewrite Hb|by rewrite Hb|done].
Qed.

Lemma store_flushing event st :
  flushing (state_after (store config event) st) = flushing st.
Proof. unfold state_after. by rewrite store_eq. Qed.

Lemma step_enqueue_calls s event :
  flush_calls (step config s (Enqueue event)).2
  = if reaches_threshold config (state s) event then 1 else 0.
Proof.
  rewrite step_enqueue. unfold reaches_threshold.
  destruct (closed (state s)); [done|]. cbn zeta. cbn [negb andb].
  destruct (batchSize config <=? _); [|done]. cbn [snd].
  by destruct (flush_cases (state_after (store config event) (state s)))
    as [(_ & _ & ->)|[(_ & _ & ->)|(_ & _ & ->)]].
Qed.

Lemma step_enqueue_dispatch s event :
  (flushing (state s) = true ->
   dispatched (step config s (Enqueue event)).2 = [] /\
   flushing (state (step config s (Enqueue event)).1) = true) /\
  (flushing (state s) = false ->
   (dispatched (step config s (Enqueue event)).2 = [] /\
    flushing (state (step config s (Enqueue event)).1) = false)
   \/ (length (dispatched (step config s (Enqueue event)).2) = 1 /\
       flushing (state (step config s (Enqueue event)).1) = true)).
Proof.
  rewrite step_enqueue. destruct (closed (state s)).
  { split; intros Hf; [done|by left]. }
  cbn zeta. pose proof (store_flushing event (state s)) as Hst.
  destruct (batchSize config <=? _); cbn [fst snd state].
  - destruct (flush_cases (state_after (store config event) (state s)))
      as [(H1 & H2 & ->)|[(H1 & H2 & ->)|(H1 & H2 & ->)]];
      rewrite Hst in H1; rewrite H2; split; intros Hf;
      try congruence; first [done | by left | by right].
  - rewrite Hst. split; intros Hf; [done|by left].
Qed.

Lemma enqueues_while_flushing events s :
  flushing (state s) = true ->
  dispatched (run config s (map Enqueue events)).2 = [].
Proof.
  revert s. induction events as [|event events IH]; intros s Hf; [done|].
  cbn [map]. rewrite run_cons. cbn [snd]. rewrite dispatched_app.
  destruct (step_enqueue_dispatch s event) as [H _].
  destruct (H Hf) as [-> Hf']. by rewrite IH.
Qed.

Lemma enqueues_dispatch_once events s :
  length (dispatched (run config s (map Enqueue events)).2) <= 1.
Proof.
  revert s. induction events as [|event events IH]; intros s; [cbn; lia|].
  cbn [map]. rewrite run_cons. cbn [snd].
  rewrite dispatched_app, length_app.
  destruct (flushing (state s)) eqn:Hf.
  - destruct (step_enqueue_dispatch s event) as [H _].
    destruct (H Hf) as [-> Hf']. apply IH.
  - destruct (step_enqueue_dispatch s event) as [_ H].
    destruct (H Hf) as [[-> Hf']|[-> Hf']]; [apply IH|].
    rewrite enqueues_while_flushing by done. cbn. lia.
Qed.

(** C8, as the code has it.  Over any run of enqueues, [flush()] is called
    once by each enqueue that is accepted and leaves [batchSize] or more
    events in the buffer, be it the enqueue that crossed the threshold or a
    later one: the calls are counted per enqueue at or above the threshold.
    Such a call starts a flush only when none is in progress; over the run
    at most one flush starts, and none when one was in progress from the
    beginning.  With no flush in progress, the enqueue that reaches the
    threshold starts a flush of the whole buffer and leaves it empty. *)
Theorem size_trigger_per_enqueue
    (s : System) (events : list QuickSearchEvent) :
  flush_calls (run config s (map Enqueue events)).2
    = count_enqueues config (reaches_threshold config) s events /\
  count_enqueues config (crosses_threshold config) s events
    <= flush_calls (run config s (map Enqueue events)).2 /\
  length (dispatched (run config s (map Enqueue events)).2) <= 1 /\
  (flushing (state s) = true ->
   dispatched (run config s (map Enqueue events)).2 = []) /\
  (forall event,
     flushing (state s) = false ->
     reaches_threshold config (state s) event = true ->
     dispatched (step config s (Enqueue event)).2
       = [buffer (state_after (store config event) (state s))] /\
     buffer (state (step config s (Enqueue event)).1) = [] /\
     flushing (state (step config s (Enqueue event)).1) = true).
Proof.
  split; [|split; [|split; [|split]]].
  - revert s. induction events as [|event events IH]; intros s; [done|].
    cbn [map count_enqueues]. rewrite run_cons. cbn [snd].
    by rewrite flush_calls_app, step_enqueue_calls, IH.
  - revert s. induction events as [|event events IH]; intros s; [done|].
    cbn [map count_enqueues]. rewrite run_cons. cbn [snd].
    rewrite flush_calls_app, step_enqueue_calls.
    specialize (IH (step config s (Enqueue event)).1).
    unfold crosses_threshold at 1.
    destruct (reaches_threshold config (state s) event);
      destruct (length (buffer (state s)) <? batchSize config);
      cbn [andb]; lia.
  - apply enqueues_dispatch_once.
  - apply enqueues_while_flushing.
  - intros event Hf. unfold reaches_threshold.
    intros [Hc Hlen]%andb_true_iff. apply negb_true_iff in Hc.
    rewrite step_enqueue, Hc. cbn zeta. rewrite Hlen. cbn [fst snd state].
    assert (Hb1 : buffer (state_after (store config event) (state s)) <> []).
    { unfold state_after. rewrite store_eq. cbn [fst snd buffer].
      by destruct (if queueSizeLimit config <=? _ then _ else _). }
    pose proof (store_flushing event (state s)) as Hf1. rewrite Hf in Hf1.
    revert Hb1 Hf1.
    generalize (state_after (store config event) (state s)).
    intros st1 Hb1 Hf1. unfold state_after, observed.
    by rewrite flush_starts.
Qed.

End TransportProperties.

(** C4 as stated fails for [queueSizeLimit: 0]: the option is kept as it
    is, and the first enqueue leaves one event in the buffer. *)
Lemma buffer_bound_counterexample :
  quickSearchTransport zero_limit_options
    = Returned (zero_limit_config, started zero_limit_config) /\
  queueSizeLimit zero_limit_config = 0 /\
  length (buffer (state (run zero_limit_config (started zero_limit_config)
                           [Enqueue (sample_event "a")]).1)) = 1 /\
  ~ length (buffer (state (run zero_limit_config (started zero_limit_config)
                             [Enqueue (sample_event "a")]).1))
    <= queueSizeLimit zero_limit_config.
Proof.
  split; [reflexivity|]. split; [reflexivity|]. split; [reflexivity|].
  vm_compute. lia.
Qed.

Lemma buffer_bounded_drop_oldest_witness :
  (forall calls,
     length (buffer (state (run small_batch_config
                              (started small_batch_config) calls).1))
     <= queueSizeLimit small_batch_config) /\
  (forall s calls,
     length (buffer (state s)) <= queueSizeLimit small_batch_config ->
     length (buffer (state (run small_batch_config s calls).1))
     <= queueSizeLimit small_batch_config) /\
  (forall st event,
     closed st = false ->
     queueSizeLimit small_batch_config <= length (buffer st) ->
     buffer (state_after (store small_batch_config event) st)
       = tail (buffer st) ++ [event] /\
     concat (dispatched (observed (addToBuffer small_batch_config event) st))
       ++ buffer (state_after (addToBuffer small_batch_config event) st)
     = tail (buffer st) ++ [event]).
Proof.
  apply (buffer_bounded_drop_oldest small_batch_config). cbn. lia.
Defined.

(** A [close()] with one event buffered and no flush in progress: the
    event goes to the dispatcher and [close()] returns when the flush has
    settled. *)
Lemma close_from_open_state_instance :
  let s := (run small_batch_config (started small_batch_config)
              [Enqueue (sample_event "a")]).1 in
  let s1 := (step small_batch_config s Close).1 in
  let obs1 := (step small_batch_config s Close).2 in
  closing s1 = true /\
  dispatched obs1 = [[sample_event "a"]] /\
  (CloseSettled ∉ obs1) /\
  forall calls sent,
    forallb (fun call => negb (is_settle call)) calls = true ->
    (step small_batch_config (run small_batch_config s1 calls).1
       (Settle sent)).2
    = [FlushSettled; CloseSettled].
Proof.
  destruct (close_from_open_state small_batch_config
              [Enqueue (sample_event "a")]) as (_ & _ & _ & _ & [_ H] & _);
    [reflexivity|].
  destruct H as (H1 & _ & _ & H2 & H3 & H4); [done|reflexivity|].
  by repeat split.
Defined.

(** C6.  A [close()] that arrives while a flush is in flight.  With
    [batchSize: 2], three enqueues leave the first two events with the
    dispatcher, not yet settled, and the third in the buffer.  The first
    [close()] then marks the transport closed, clears the interval timer
    and calls [flush()] once, but that call finds [flushing] set and
    returns at once: [close()] returns while the flush in flight has still
    not settled, it hands nothing to the dispatcher, and the third event
    stays in the buffer.  That event is never flushed: whatever calls
    follow, the transport stays closed, the buffer keeps the event,
    [flush()] is not called again and nothing more is dispatched. *)
Theorem close_leaves_event_unflushed :
  let s1 := (step small_batch_config busy_system Close).1 in
  busy_system
  = {| state := {| buffer := [sample_event "c"]; flushTimer := Some 2000%Z;
                   closed := false; flushing := true |};
       closing := false |} /\
  dispatched (run small_batch_config (started small_batch_config)
                (map Enqueue [sample_event "a"; sample_event "b";
                              sample_event "c"])).2
  = [[sample_event "a"; sample_event "b"]] /\
  step small_batch_config busy_system Close
  = ({| state := {| buffer := [sample_event "c"]; flushTimer := None;
                    closed := true; flushing := true |};
        closing := false |},
     [IntervalCleared; FlushCalled; FlushSettled; CloseSettled]) /\
  forall calls,
    closed (state (run small_batch_config s1 calls).1) = true /\
    buffer (state (run small_batch_config s1 calls).1) = [sample_event "c"] /\
    flush_calls (run small_batch_config s1 calls).2 = 0 /\
    dispatched (run small_batch_config s1 calls).2 = [].
Proof.
  cbn zeta. do 3 (split; [reflexivity|]). intros calls.
  destruct (run_shut small_batch_config calls
              (step small_batch_config busy_system Close).1)
    as (Hc & _ & Hb & Hf & Hd & _); [reflexivity|reflexivity|].
  by rewrite Hb.
Qed.

(** C8 as stated fails: with [batchSize: 2], five enqueues in a row cross
    the threshold twice (at the second and the fourth), yet [flush()] is
    called three times, once for each of the three enqueues that leave two
    events or more, and only one flush starts. *)
Lemma size_trigger_counterexample :
  count_enqueues small_batch_config (crosses_threshold small_batch_config)
    (started small_batch_config) five_events = 2 /\
  count_enqueues small_batch_config (reaches_threshold small_batch_config)
    (started small_batch_config) five_events = 3 /\
  flush_calls (run small_batch_config (started small_batch_config)
                 (map Enqueue five_events)).2 = 3 /\
  dispatched (run small_batch_config (started small_batch_config)
                (map Enqueue five_events)).2
    = [[sample_event "a"; sample_event "b"]].
Proof. repeat split; reflexivity. Qed.

(** * Further properties *)

(** ** The delivery client *)

Section ClientFurther.

Variable JSON_stringify : QuickSearchEvent -> string.
Variable c : QuickSearchHttpClient.

#[local] Abbreviation J := JSON_stringify.

Lemma retry_trace event net :
  exists n,
    1 <= n <= retryAttempts c + 1 /\
    (sendEventWithRetry J c event net).1
      = alternation c (request J c event) 0 n.
Proof.
  unfold sendEventWithRetry.
  destruct (retry_loop_shape J c event net (S (retryAttempts c)) 0 None)
    as (j & Hj & Hpos & Hio & _); [lia|].
  exists j. split; [|done]. split; [apply Hpos|]; lia.
Qed.

Lemma total_geometric (d : Z) (a m : nat) :
  total (map (fun k => (d * 2 ^ Z.of_nat k)%Z) (seq a m))
  = (d * 2 ^ Z.of_nat a * (2 ^ Z.of_nat m - 1))%Z.
Proof.
  revert a. induction m as [|m IH]; intros a.
  - cbn. lia.
  - cbn [seq map total foldr]. fold (total (map (fun k => (d * 2 ^ Z.of_nat k)%Z)
                                              (seq (S a) m))).
    rewrite IH. rewrite !Nat2Z.inj_succ, !Z.pow_succ_r by lia. ring.
Qed.

(** X1.  The time a send spends waiting is a geometric sum: after [n] attempts
    the sleeps add up to [retryDelay * (2^(n-1) - 1)], which for a delay
    that is not negative is at most [retryDelay * (2^retryAttempts - 1)]. *)
Theorem total_backoff (event : QuickSearchEvent) (net : nat -> FetchOutcome) :
  let io := (sendEventWithRetry J c event net).1 in
  let n := length (fetches io) in
  total (sleeps io) = (retryDelay c * (2 ^ Z.of_nat (n - 1) - 1))%Z /\
  ((0 <= retryDelay c)%Z ->
   (0 <= total (sleeps io)
    <= retryDelay c * (2 ^ Z.of_nat (retryAttempts c) - 1))%Z).
Proof.
  cbn zeta. destruct (retry_trace event net) as (n & Hn & ->).
  rewrite alternation_fetches, alternation_sleeps, length_replicate.
  rewrite total_geometric. cbn [Z.of_nat]. rewrite Z.pow_0_r, Z.mul_1_r.
  split; [done|]. intros Hd.
  assert (1 <= 2 ^ Z.of_nat (n - 1) <= 2 ^ Z.of_nat (retryAttempts c))%Z.
  { split; [apply (Z.pow_le_mono_r 2 0); lia|].
    apply Z.pow_le_mono_r; lia. }
  nia.
Qed.

Lemma retry_loop_stops event net out j :
  forall a m lastError,
    a + m = S (retryAttempts c) -> j < m ->
    (forall k, a <= k < a + j -> retryable_failure (net k) = true) ->
    match (sendEvent J c event (net (a + j))).2 with
    | Returned r => out = Delivered r
    | Threw e => isNonRetryableError e = true /\ out = Aborted e
    end ->
    retry_loop J c event net (seq a m) lastError
    = (alternation c (request J c event) a (S j), out).
Proof.
  induction j as [|j IH]; intros a m lastError Ham Hj Hretry Hstop.
  - destruct m as [|m]; [lia|]. cbn [seq retry_loop].
    rewrite Nat.add_0_r in Hstop.
    assert (Hreq : (sendEvent J c event (net a)).1 = request J c event) by done.
    destruct (sendEvent J c event (net a)) as [rq result].
    cbn [fst snd] in *. subst rq.
    destruct result as [r|e]; [by subst|].
    destruct Hstop as [-> ->]. done.
  - destruct m as [|m]; [lia|]. cbn [seq retry_loop].
    destruct (retryable_failure_thrown J c event (net a))
      as (err & Hthrow & Hnr & _); [apply Hretry; lia|].
    assert (Hreq : (sendEvent J c event (net a)).1 = request J c event) by done.
    destruct (sendEvent J c event (net a)) as [rq result].
    cbn [fst snd] in *. subst rq result. rewrite Hnr.
    assert ((a <? retryAttempts c) = true) as -> by (apply Nat.ltb_lt; lia).
    specialize (IH (S a) m (Some err)). rewrite IH; try lia.
    + done.
    + intros k Hk. apply Hretry. lia.
    + by replace (S a + j) with (a + S j) by lia.
Qed.

(** X2.  The loop stops at the first attempt that is not a retryable failure.
    After [j <= retryAttempts] retryable failures, a response makes the
    send succeed with that response, and an error that
    [isNonRetryableError] flags is thrown at once; either way [j + 1]
    requests were made, with the delays [retryDelay], [2 retryDelay], ...,
    [2^(j-1) retryDelay] between them and nothing after the last. *)
Theorem retry_stops_at_first_final_answer
    (event : QuickSearchEvent) (net : nat -> FetchOutcome) (j : nat) :
  j <= retryAttempts c ->
  (forall k, k < j -> retryable_failure (net k) = true) ->
  let run := sendEventWithRetry J c event net in
  (forall r, (sendEvent J c event (net j)).2 = Returned r ->
     run.2 = Delivered r) /\
  (forall e, (sendEvent J c event (net j)).2 = Threw e ->
     isNonRetryableError e = true -> run.2 = Aborted e) /\
  (((exists r, (sendEvent J c event (net j)).2 = Returned r) \/
    (exists e, (sendEvent J c event (net j)).2 = Threw e
               /\ isNonRetryableError e = true)) ->
   length (fetches run.1) = j + 1 /\
   sleeps run.1
     = map (fun k => (retryDelay c * 2 ^ Z.of_nat k)%Z) (seq 0 j) /\
   last run.1 = Some (Fetch (request J c event))).
Proof.
  intros Hj Hretry. cbn zeta. unfold sendEventWithRetry.
  assert (Hrun : forall out,
    match (sendEvent J c event (net j)).2 with
    | Returned r => out = Delivered r
    | Threw e => isNonRetryableError e = true /\ out = Aborted e
    end ->
    retry_loop J c event net (seq 0 (S (retryAttempts c))) None
    = (alternation c (request J c event) 0 (S j), out)).
  { intros out Hout.
    apply (retry_loop_stops event net out j 0); try lia; [|done].
    intros k Hk. apply Hretry. lia. }
  split; [|split].
  - intros r Hr. rewrite (Hrun (Delivered r)); [done|by rewrite Hr].
  - intros e He Hnr. rewrite (Hrun (Aborted e)); [done|by rewrite He].
  - intros [[r Hr]|(e & He & Hnr)].
    + rewrite (Hrun (Delivered r)) by (by rewrite Hr). cbn [fst].
      rewrite alternation_fetches, alternation_sleeps, length_replicate.
      rewrite alternation_last by lia.
      split; [lia|]. split; [|done]. by rewrite Nat.sub_succ, Nat.sub_0_r.
    + rewrite (Hrun (Aborted e)) by (by rewrite He). cbn [fst].
      rewrite alternation_fetches, alternation_sleeps, length_replicate.
      rewrite alternation_last by lia.
      split; [lia|]. split; [|done]. by rewrite Nat.sub_succ, Nat.sub_0_r.
Qed.

(** X3.  [sendEvent] returns exactly when [fetch] resolves with a status from
    200 to 299 and the JSON body is read; then it returns that body.  In
    every other case it throws. *)
Theorem sendEvent_returns_iff
    (event : QuickSearchEvent) (net : FetchOutcome) (r : EventResponse) :
  (sendEvent J c event net).2 = Returned r <->
  exists status text,
    200 <= status <= 299 /\ net = FetchResolved status text (BodyJson r).
Proof.
  unfold sendEvent, on_error. cbn [snd]. split.
  - destruct net as [status text [r'|e]|e]; cbn [try_catch].
    + destruct (ok status) eqn:Hok; cbn [negb try_catch].
      * intros [= ->]. exists status, text. split; [|done].
        unfold ok in Hok. apply andb_true_iff in Hok as [H1 H2].
        apply Nat.leb_le in H1, H2. lia.
      * by destruct (String.eqb _ _).
    + destruct (ok status); cbn [negb try_catch];
        by repeat destruct (String.eqb _ _).
    + by destruct (String.eqb _ _).
  - intros (status & text & Hs & ->). cbn [try_catch].
    assert (ok status = true) as ->; [|done].
    unfold ok. apply andb_true_iff. split; apply Nat.leb_le; lia.
Qed.

(** X4.  For a three-digit status, the error of an HTTP response stops the
    retries exactly when the status is in [400,499] and is not 429; an
    error without a [code], or with an empty one, never does. *)
Theorem non_retryable_iff_client_error
    (status : nat) (text : option string) :
  100 <= status <= 999 ->
  (isNonRetryableError (http_error status text) = true <->
   400 <= status <= 499 /\ status <> 429) /\
  (forall e, code e = None \/ code e = Some EmptyString ->
     isNonRetryableError e = false).
Proof.
  intros Hs. split.
  - assert (H : forallb
        (fun s => Bool.eqb (isNonRetryableError (http_error s None))
                    ((400 <=? s) && (s <=? 499) && negb (s =? 429)))
        (seq 100 900) = true) by (vm_compute; reflexivity).
    rewrite forallb_forall in H.
    specialize (H status (in_range 100 900 status ltac:(lia))).
    apply Bool.eqb_prop in H.
    change (isNonRetryableError (http_error status text))
      with (isNonRetryableError (http_error status None)).
    rewrite H, !andb_true_iff, negb_true_iff, !Nat.leb_le, Nat.eqb_neq. tauto.
  - intros e [He|He]; unfold isNonRetryableError; by rewrite He.
Qed.

Lemma retry_fetches event net :
  1 <= length (fetches (sendEventWithRetry J c event net).1)
    <= retryAttempts c + 1.
Proof.
  destruct (retry_trace event net) as (n & Hn & ->).
  by rewrite alternation_fetches, length_replicate.
Qed.

(** X5.  In a batch every event gets its own send, whatever happens to the
    others: the send of event [i] makes between one and
    [retryAttempts + 1] requests, all of them the request of that event,
    and so the batch makes between [n] and [n (retryAttempts + 1)]
    requests for [n] events. *)
Theorem sendEvents_sends_each
    (net : nat -> nat -> FetchOutcome) (instant : nat -> nat)
    (events : list QuickSearchEvent) :
  (forall i event, events !! i = Some event ->
     exists io,
       (sendEvents J c net instant events).1 !! i = Some io /\
       io = (sendEventWithRetry J c event (net i)).1 /\
       1 <= length (fetches io) <= retryAttempts c + 1 /\
       Forall (eq (request J c event)) (fetches io)) /\
  length events
    <= length (fetches (concat (sendEvents J c net instant events).1))
    <= length events * (retryAttempts c + 1).
Proof.
  assert (Htr : (sendEvents J c net instant events).1
                = imap (fun i event => (sendEventWithRetry J c event (net i)).1)
                       events).
  { unfold sendEvents, send_each. destruct events as [|event events]; [done|].
    cbn [length Nat.eqb fst]. clear. generalize (event :: events). intros l.
    revert net. induction l as [|x l IH]; intros net; [done|].
    cbn [imap map]. f_equal. apply (IH (fun i => net (S i))). }
  rewrite Htr. split.
  - intros i event Hi. eexists. rewrite list_lookup_imap, Hi. cbn.
    split; [done|]. split; [done|].
    split; [apply retry_fetches|apply sendEventWithRetry_requests].
  - clear Htr. revert net. induction events as [|event events IH]; intros net.
    + cbn. lia.
    + cbn [imap concat length]. unfold compose. cbn beta.
      specialize (IH (fun i => net (S i))). cbn beta in IH.
      pose proof (retry_fetches event (net 0)) as H0.
      unfold fetches in *. rewrite omap_app, length_app. lia.
Qed.

End ClientFurther.

(** ** Level mapping and filtering *)

Lemma PINO_LEVELS_Some level n :
  PINO_LEVELS !! level = Some n ->
  (level = 10%Z /\ n = Pino.trace) \/ (level = 20%Z /\ n = Pino.debug) \/
  (level = 30%Z /\ n = Pino.info) \/ (level = 40%Z /\ n = Pino.warn) \/
  (level = 50%Z /\ n = Pino.error) \/ (level = 60%Z /\ n = Pino.fatal).
Proof.
  intros H. apply elem_of_list_to_map_2 in H.
  repeat (apply elem_of_cons in H as [[= -> ->]|H]; [tauto|]).
  by apply elem_of_nil in H.
Qed.

Lemma PINO_LEVELS_None level :
  PINO_LEVELS !! level = None ->
  level <> 10%Z /\ level <> 20%Z /\ level <> 30%Z /\
  level <> 40%Z /\ level <> 50%Z /\ level <> 60%Z.
Proof.
  intros H. apply not_elem_of_list_to_map in H. cbn in H.
  rewrite !not_elem_of_cons in H. tauto.
Qed.

(** X6.  The two level maps agree: the event type of a level is the type
    [LEVEL_TO_TYPE] gives to its level name, for standard and custom levels
    alike. *)
Theorem mapLevelToType_of_name (level : Z) :
  mapLevelToType level = LEVEL_TO_TYPE (mapLevelToName level).
Proof.
  unfold mapLevelToType, mapLevelToName.
  destruct (PINO_LEVELS !! level); [done|].
  destruct (level <? 10)%Z eqn:H10.
  { apply Z.ltb_lt in H10.
    by assert ((level <? 20)%Z = true) as -> by (apply Z.ltb_lt; lia). }
  by repeat destruct (_ <? _)%Z.
Qed.

Lemma level_band (l : Z) :
  getLevelValue (level_name (mapLevelToName l))
  = JsNum (Z.max 10 (Z.min 60 (10 * (l / 10)))).
Proof.
  unfold mapLevelToName.
  destruct (PINO_LEVELS !! l) as [n|] eqn:E.
  - apply PINO_LEVELS_Some in E.
    destruct E as [[-> ->]|[[-> ->]|[[-> ->]|[[-> ->]|[[-> ->]|[-> ->]]]]]];
      reflexivity.
  - clear E.
    repeat (match goal with
            | |- context [(l <? ?b)%Z] =>
                destruct (Z.ltb_spec l b)
            end);
      match goal with
      | |- getLevelValue ?s = _ =>
          let v := eval vm_compute in (getLevelValue s) in
          change (getLevelValue s) with v
      end;
      f_equal; Z.div_mod_to_equations; lia.
Qed.

(** X7.  [mapLevelToName] rounds a level down to its band: the name it gives is
    the one whose value is [10 * floor(level / 10)], kept between 10 and
    60.  So a larger level never gets a name of lower value. *)
Theorem mapLevelToName_band (level : Z) :
  getLevelValue (level_name (mapLevelToName level))
    = JsNum (Z.max 10 (Z.min 60 (10 * (level / 10)))) /\
  (forall level' v v',
     (level <= level')%Z ->
     getLevelValue (level_name (mapLevelToName level)) = JsNum v ->
     getLevelValue (level_name (mapLevelToName level')) = JsNum v' ->
     (v <= v')%Z).
Proof.
  pose proof level_band as Hband.
  split; [apply Hband|].
  intros level' v v' Hle. rewrite !Hband. intros [= <-] [= <-].
  assert (level / 10 <= level' / 10)%Z by (apply Z.div_le_mono; lia).
  lia.
Qed.

(** X8.  [PINO_LEVELS] and [MIN_LEVEL_VALUES] are inverse tables: each level
    name has a value, and that value is mapped back to the name and to the
    event type of the name. *)
Theorem level_tables_inverse (n : Pino.PinoLevelName) :
  exists v,
    getLevelValue (level_name n) = JsNum v /\
    PINO_LEVELS !! v = Some n /\
    mapLevelToName v = n /\
    mapLevelToType v = LEVEL_TO_TYPE n /\
    (forall v', PINO_LEVELS !! v' = Some n -> v' = v).
Proof.
  destruct n;
    [exists 10%Z|exists 20%Z|exists 30%Z|exists 40%Z|exists 50%Z|exists 60%Z];
    (do 4 (split; [reflexivity|]));
    intros v' H; apply PINO_LEVELS_Some in H;
    destruct H as [[-> ?]|[[-> ?]|[[-> ?]|[[-> ?]|[[-> ?]|[-> ?]]]]]];
    done.
Qed.

Lemma getLevelValue_cases (minimumLevel : string) :
  (exists v, (10 <= v <= 60)%Z /\ getLevelValue minimumLevel = JsNum v)
  \/ (exists f, getLevelValue minimumLevel = JsFunction f)
  \/ (exists d, getLevelValue minimumLevel = JsObject d).
Proof.
  unfold getLevelValue, get_property.
  destruct (MIN_LEVEL_VALUES !! _) as [v|] eqn:E.
  - left. exists v. split; [|done].
    apply elem_of_list_to_map_2 in E.
    repeat (apply elem_of_cons in E as [[= _ ->]|E]; [lia|]).
    by apply elem_of_nil in E.
  - clear E. destruct (Object_prototype !! _) as [x|] eqn:E.
    + apply elem_of_list_to_map_2 in E. cbn [default nullish_or].
      repeat (apply elem_of_cons in E as [[= _ ->]|E];
              [right; first [by left; eexists | by right; eexists]|]).
      by apply elem_of_nil in E.
    + left. exists 10%Z. split; [lia|done].
Qed.

(** X9.  Whatever string [minimumLevel] is, the filter is a threshold: either
    there is a value between 10 and 60 such that exactly the levels from it
    upwards pass, or no level passes.  Hence a level below 10 never passes,
    and a level passes whenever a smaller one does. *)
Theorem minimum_level_is_threshold (minimumLevel : string) :
  ((exists v, (10 <= v <= 60)%Z /\
      forall level, meetsMinimumLevel level minimumLevel = (v <=? level)%Z)
   \/ (forall level, meetsMinimumLevel level minimumLevel = false)) /\
  (forall level, (level < 10)%Z ->
     meetsMinimumLevel level minimumLevel = false) /\
  (forall level level', (level <= level')%Z ->
     meetsMinimumLevel level minimumLevel = true ->
     meetsMinimumLevel level' minimumLevel = true).
Proof.
  unfold meetsMinimumLevel.
  destruct (getLevelValue_cases minimumLevel)
    as [(v & Hv & ->)|[[f ->]|[d ->]]]; cbn [js_ge].
  - split; [left; by exists v|]. split.
    + intros level Hl. apply Z.leb_gt. lia.
    + intros level level' Hle H. apply Z.leb_le in H. apply Z.leb_le. lia.
  - split; [by right|]. by split.
  - split; [by right|]. by split.
Qed.

(** X10.  A record passes the filter set to the name of its own level exactly
    when its level is 10 or more: levels below 10 are named [trace] and
    typed [Trace], but the trace threshold is 10. *)
Theorem own_level_passes_from_10 (level : Z) :
  meetsMinimumLevel level (level_name (mapLevelToName level))
    = (10 <=? level)%Z /\
  ((level < 10)%Z ->
   mapLevelToName level = Pino.trace /\ mapLevelToType level = Trace /\
   forall minimumLevel, meetsMinimumLevel level minimumLevel = false).
Proof.
  split.
  - unfold meetsMinimumLevel. rewrite level_band. cbn [js_ge].
    destruct (Z.leb_spec 10 level); [apply Z.leb_le|apply Z.leb_gt];
      Z.div_mod_to_equations; lia.
  - intros Hl.
    assert (Hname : mapLevelToName level = Pino.trace).
    { unfold mapLevelToName.
      destruct (PINO_LEVELS !! level) as [n|] eqn:E.
      - apply PINO_LEVELS_Some in E. lia.
      - by assert ((level <? 20)%Z = true) as -> by (apply Z.ltb_lt; lia). }
    split; [done|]. split.
    + unfold mapLevelToType.
      destruct (PINO_LEVELS !! level) as [n|] eqn:E.
      * apply PINO_LEVELS_Some in E. lia.
      * by assert ((level <? 10)%Z = true) as -> by (apply Z.ltb_lt; lia).
    + intros m. unfold meetsMinimumLevel.
      destruct (getLevelValue_cases m) as [(v & Hv & ->)|[[f ->]|[d ->]]];
        cbn [js_ge]; [apply Z.leb_gt; lia|done|done].
Qed.

(** ** Event formatting *)

Lemma get_own_None key o : get_own key o = None <-> key ∉ o.*1.
Proof.
  induction o as [|[k v] o IH]; cbn [get_own fmap list_fmap fst].
  - split; [intros _; apply not_elem_of_nil|done].
  - rewrite not_elem_of_cons. destruct (String.eqb_spec k key) as [->|Hne].
    + split; [done|]. by intros [? _].
    + rewrite IH. split; [by split|by intros [_ ?]].
Qed.

Lemma get_own_Some key value o : get_own key o = Some value -> (key, value) ∈ o.
Proof.
  induction o as [|[k v] o IH]; cbn [get_own]; [done|].
  destruct (String.eqb_spec k key) as [->|Hne].
  - intros [= ->]. apply elem_of_cons. by left.
  - intros H. apply elem_of_cons. right. by apply IH.
Qed.

Lemma get_own_replace key value o key' :
  is_Some (get_own key o) ->
  get_own key' (replace_own key value o)
  = if String.eqb key key' then Some value else get_own key' o.
Proof.
  induction o as [|[k v] o IH]; cbn [get_own replace_own].
  - by intros [? ?].
  - intros Hsome. destruct (String.eqb_spec k key) as [->|Hne].
    + cbn [get_own]. by destruct (String.eqb_spec key key').
    + cbn [get_own]. destruct (String.eqb_spec k key') as [->|Hne'].
      * by destruct (String.eqb_spec key key').
      * by apply IH.
Qed.

Lemma get_own_insert_index i key value o key' :
  get_own key o = None ->
  get_own key' (insert_index i key value o)
  = if String.eqb key key' then Some value else get_own key' o.
Proof.
  induction o as [|[k v] o IH]; cbn [get_own insert_index]; [done|].
  destruct (String.eqb_spec k key) as [->|Hne]; [done|]. intros Hnone.
  assert (Hhead : get_own key' ((key, value) :: (k, v) :: o)
            = if String.eqb key key' then Some value
              else if String.eqb k key' then Some v else get_own key' o)
    by done.
  destruct (array_index k) as [j|]; [|exact Hhead].
  destruct (j <? i)%N; [|exact Hhead].
  cbn [get_own]. rewrite IH by done.
  destruct (String.eqb_spec k key') as [->|Hne']; [|done].
  by destruct (String.eqb_spec key key').
Qed.

Lemma get_own_app key o o' :
  get_own key (o ++ o')
  = match get_own key o with Some x => Some x | None => get_own key o' end.
Proof.
  induction o as [|[k v] o IH]; cbn [get_own app]; [done|].
  by destruct (String.eqb k key).
Qed.

(** Reading after an assignment: the assigned value under the assigned key,
    unless that key is [__proto__] and not an own property. *)
Lemma get_set key value o key' :
  get_own key' (set_property key value o)
  = if String.eqb key key'
       && (negb (String.eqb key "__proto__")
           || bool_decide (is_Some (get_own key o)))
    then Some value else get_own key' o.
Proof.
  unfold set_property. destruct (get_own key o) as [x|] eqn:E.
  - rewrite bool_decide_eq_true_2, orb_true_r, andb_true_r by done.
    apply get_own_replace. by rewrite E.
  - rewrite bool_decide_eq_false_2, orb_false_r by (by intros [? ?]).
    destruct (String.eqb key "__proto__"); [by rewrite andb_false_r|].
    rewrite andb_true_r. destruct (array_index key) as [i|].
    + by apply get_own_insert_index.
    + rewrite get_own_app. cbn [get_own].
      destruct (String.eqb_spec key key') as [->|Hne].
      * by rewrite E.
      * by destruct (get_own key' o).
Qed.

Lemma get_set_ordinary key value o key' :
  String.eqb key "__proto__" = false ->
  get_own key' (set_property key value o)
  = if String.eqb key key' then Some value else get_own key' o.
Proof. intros H. by rewrite get_set, H, andb_true_r. Qed.

(** An assignment never makes [__proto__] an own property. *)
Lemma set_property_proto key value o :
  get_own "__proto__" o = None ->
  get_own "__proto__" (set_property key value o) = None.
Proof.
  intros H. rewrite get_set.
  destruct (String.eqb_spec key "__proto__") as [->|Hne]; [|done].
  cbn [negb orb]. by rewrite bool_decide_eq_false_2 by (rewrite H; by intros [? ?]).
Qed.

Lemma copy_cons key value es data :
  copy_properties ((key, value) :: es) data
  = copy_properties es
      (if copied key then set_property key value data else data).
Proof. reflexivity. Qed.

Lemma copy_app es es' data :
  copy_properties (es ++ es') data
  = copy_properties es' (copy_properties es data).
Proof. apply fold_left_app. Qed.

Lemma copy_skips key es data :
  copied key = false \/ key ∉ es.*1 ->
  get_own key (copy_properties es data) = get_own key data.
Proof.
  revert data. induction es as [|[k v] es IH]; intros data Hk; [done|].
  rewrite copy_cons, IH.
  - destruct (copied k) eqn:Hc; [|done]. rewrite get_set.
    destruct (String.eqb_spec k key) as [->|Hne]; [|done].
    destruct Hk as [Hk|Hk]; [congruence|].
    destruct Hk. cbn. apply elem_of_cons. by left.
  - destruct Hk as [Hk|Hk]; [by left|right].
    cbn in Hk. apply not_elem_of_cons in Hk. tauto.
Qed.

(** The copy loop never makes [__proto__] an own property. *)
Lemma copy_proto es data :
  get_own "__proto__" data = None ->
  get_own "__proto__" (copy_properties es data) = None.
Proof.
  revert data. induction es as [|[k v] es IH]; intros data H; [done|].
  rewrite copy_cons. apply IH. destruct (copied k); [|done].
  by apply set_property_proto.
Qed.

Lemma copy_writes key value es data :
  NoDup es.*1 -> (key, value) ∈ es -> copied key = true ->
  key <> "__proto__" ->
  get_own key (copy_properties es data) = Some value.
Proof.
  revert data. induction es as [|[k v] es IH]; intros data Hnd Hin Hc Hp.
  - by apply elem_of_nil in Hin.
  - cbn in Hnd. apply NoDup_cons in Hnd as [Hk Hnd]. rewrite copy_cons.
    apply elem_of_cons in Hin as [[= -> ->]|Hin].
    + rewrite copy_skips by (by right). rewrite Hc, get_set_ordinary.
      * by destruct (String.eqb_spec k k).
      * by destruct (String.eqb_spec k "__proto__").
    + by apply IH.
Qed.

Lemma copy_origin key value es data :
  get_own key (copy_properties es data) = Some value ->
  get_own key data = Some value
  \/ ((key, value) ∈ es /\ copied key = true).
Proof.
  revert data. induction es as [|[k v] es IH]; intros data H; [by left|].
  rewrite copy_cons in H. apply IH in H as [H|[Hin Hc]].
  - destruct (copied k) eqn:Hck; [|by left]. rewrite get_set in H.
    destruct (String.eqb_spec k key) as [->|Hne]; [|by left].
    destruct (negb (String.eqb key "__proto__")
              || bool_decide (is_Some (get_own key data))); [|by left].
    injection H as <-. right. split; [|done]. apply elem_of_cons. by left.
  - right. split; [|done]. apply elem_of_cons. by right.
Qed.

(** The named properties are all skipped by the copy loop. *)
Lemma copy_entries obj data :
  copy_properties (entries obj) data = copy_properties (Pino.rest obj) data.
Proof.
  unfold entries. rewrite !copy_app. f_equal.
  by destruct (Pino.msg obj), (Pino.err obj), (Pino.traceId obj),
    (Pino.spanId obj).
Qed.

Section FormattingProperties.

Variable Date_toISOString : Z -> string.

Lemma formatEvent_Returned obj application event :
  formatEvent Date_toISOString obj application = Returned event ->
  (Z.abs (Pino.time obj) <= 8640000000000000)%Z /\
  event
  = {| type := mapLevelToType (Pino.level obj);
       application := application;
       timestamp := Date_toISOString (Pino.time obj);
       message := default EmptyString (Pino.msg obj);
       data := copy_properties (Pino.rest obj)
                 (base_data obj (mapLevelToName (Pino.level obj))) |}.
Proof.
  unfold formatEvent, timestampToISO. cbn zeta.
  destruct (Z.leb_spec (Z.abs (Pino.time obj)) 8640000000000000); [|done].
  rewrite copy_entries. intros [= <-]. by split.
Qed.

End FormattingProperties.

Lemma get_base key obj n :
  get_own key (base_data obj n)
  = if String.eqb "spanId" key && truthy (Pino.spanId obj) then
      Some (JString (default EmptyString (Pino.spanId obj)))
    else if String.eqb "traceId" key && truthy (Pino.traceId obj) then
      Some (JString (default EmptyString (Pino.traceId obj)))
    else
      match extractException obj with
      | Some x =>
          if String.eqb "exceptionMessage" key then
            Some (JString (exceptionMessage x))
          else if String.eqb "exceptionType" key then
            Some (JString (exceptionType x))
          else if String.eqb "exception" key then
            Some (JString (exception x))
          else
            get_own key
              [("level", JString (level_name n));
               ("pid", JNumber (Pino.pid obj));
               ("hostname", JString (Pino.hostname obj))]
      | None =>
          get_own key
            [("level", JString (level_name n));
             ("pid", JNumber (Pino.pid obj));
             ("hostname", JString (Pino.hostname obj))]
      end.
Proof.
  unfold base_data, assign_exception.
  destruct (truthy (Pino.spanId obj)), (truthy (Pino.traceId obj)),
    (extractException obj);
    rewrite ?get_set_ordinary, ?andb_true_r, ?andb_false_r by reflexivity;
    reflexivity.
Qed.

Lemma copied_fixed :
  copied "level" = false /\ copied "pid" = false /\ copied "hostname" = false
  /\ copied "time" = false /\ copied "msg" = false /\ copied "err" = false
  /\ copied "v" = false /\ copied "traceId" = false
  /\ copied "spanId" = false.
Proof. by vm_compute. Qed.

Ltac in_list := rewrite !elem_of_cons; tauto.

Section FormatEvent.

Variable Date_toISOString : Z -> string.

#[local] Abbreviation format := (formatEvent Date_toISOString).


(** X12.  Every additional property of the record whose key is not reserved,
    is not [traceId] or [spanId] and is not [__proto__] is in [data] with
    its value; this holds for the keys [exception], [exceptionType] and
    [exceptionMessage] too, where the property of the record replaces the
    extracted one.  The key [__proto__] passes the test of the copy loop,
    but the assignment [data[key] = value] then runs the setter inherited
    from [Object.prototype] and creates no property: [data] never has a
    property of its own under that name. *)
Theorem format_copies_additional
    (obj : Pino.PinoLogObject) (application0 : string)
    (event : QuickSearchEvent) :
  NoDup (Pino.rest obj).*1 ->
  format obj application0 = Returned event ->
  (forall key value,
     (key, value) ∈ Pino.rest obj ->
     copied key = true ->
     key <> "__proto__" ->
     get_own key (data event) = Some value) /\
  copied "__proto__" = true /\
  get_own "__proto__" (data event) = None.
Proof.
  intros Hnd Hev. apply formatEvent_Returned in Hev as [_ ->].
  cbn [data]. split; [|split].
  - intros key value Hin Hc Hp. by apply copy_writes.
  - by vm_compute.
  - apply copy_proto. rewrite get_base.
    by destruct (truthy (Pino.spanId obj)), (truthy (Pino.traceId obj)),
      (extractException obj).
Qed.

(** X13.  Every property of [data] is one of the eight that [formatEvent] builds
    or a copied additional property with its value.  The reserved keys
    [time], [msg], [err] and [v] never appear in [data]. *)
Theorem format_data_origin
    (obj : Pino.PinoLogObject) (application0 : string)
    (event : QuickSearchEvent) :
  format obj application0 = Returned event ->
  (forall key value,
     get_own key (data event) = Some value ->
     key ∈ ["level"; "pid"; "hostname"; "exception"; "exceptionType";
            "exceptionMessage"; "traceId"; "spanId"]
     \/ ((key, value) ∈ Pino.rest obj /\ copied key = true)) /\
  (forall key, key ∈ ["time"; "msg"; "err"; "v"] ->
     get_own key (data event) = None).
Proof.
  intros Hev. apply formatEvent_Returned in Hev as [_ ->]. cbn [data].
  assert (Hbase : forall key value,
    get_own key (base_data obj (mapLevelToName (Pino.level obj))) = Some value ->
    key ∈ ["level"; "pid"; "hostname"; "exception"; "exceptionType";
           "exceptionMessage"; "traceId"; "spanId"]).
  { intros key value. rewrite get_base.
    destruct (String.eqb_spec "spanId" key) as [<-|_]; [intros _; in_list|].
    destruct (String.eqb_spec "traceId" key) as [<-|_]; [intros _; in_list|].
    cbn [andb].
    assert (Hfixed : forall v,
      get_own key
        [("level", JString (level_name (mapLevelToName (Pino.level obj))));
         ("pid", JNumber (Pino.pid obj));
         ("hostname", JString (Pino.hostname obj))] = Some v ->
      key ∈ ["level"; "pid"; "hostname"; "exception"; "exceptionType";
             "exceptionMessage"; "traceId"; "spanId"]).
    { intros v. cbn [get_own].
      destruct (String.eqb_spec "level" key) as [<-|_]; [intros _; in_list|].
      destruct (String.eqb_spec "pid" key) as [<-|_]; [intros _; in_list|].
      destruct (String.eqb_spec "hostname" key) as [<-|_];
        [intros _; in_list|done]. }
    destruct (extractException obj); [|apply Hfixed].
    destruct (String.eqb_spec "exceptionMessage" key) as [<-|_];
      [intros _; in_list|].
    destruct (String.eqb_spec "exceptionType" key) as [<-|_];
      [intros _; in_list|].
    destruct (String.eqb_spec "exception" key) as [<-|_];
      [intros _; in_list|apply Hfixed]. }
  split.
  - intros key value H. apply copy_origin in H as [H|H]; [left|by right].
    by eapply Hbase.
  - intros key Hkey.
    destruct copied_fixed as (_ & _ & _ & Ht & Hm & He & Hv & _).
    repeat (apply elem_of_cons in Hkey as [->|Hkey];
            [rewrite copy_skips, get_base by (by left);
             by destruct (extractException obj)|]).
    by apply elem_of_nil in Hkey.
Qed.


Variable config : Config.

Lemma step_enqueue_addToBuffer s event :
  step config s (Enqueue event)
  = ({| state := state_after (addToBuffer config event) (state s);
        closing := closing s |},
     observed (addToBuffer config event) (state s)).
Proof.
  cbn [step]. unfold state_after, observed.
  by destruct (addToBuffer config event (state s)) as [[[] st] obs].
Qed.

(** X15.  [processLogs] enqueues, in order, the events of the records that pass
    the level check and that [formatEvent] formats, and does nothing else:
    a record below the minimum level, or one whose time value is invalid,
    is skipped and the records after it are still processed. *)
Theorem processLogs_enqueues_accepted
    (source : list Pino.PinoLogObject) (s : System) :
  let events := accepted Date_toISOString config source in
  state_after (processLogs Date_toISOString config source) (state s)
    = state (run config s (map Enqueue events)).1 /\
  observed (processLogs Date_toISOString config source) (state s)
    = (run config s (map Enqueue events)).2 /\
  closing (run config s (map Enqueue events)).1 = closing s.
Proof.
  cbn zeta. revert s. induction source as [|obj source IH]; intros s; [done|].
  cbn [processLogs accepted omap list_omap].
  fold (accepted Date_toISOString config source).
  unfold state_after, observed, mbind, Sync_bind. unfold processLog at 1 2.
  destruct (meetsMinimumLevel (Pino.level obj) (minimumLevel config));
    cbn [negb].
  - destruct (formatEvent Date_toISOString obj (cfg_application config))
      as [event|e].
    + cbn [map]. rewrite run_cons, step_enqueue_addToBuffer. cbn [fst snd].
      destruct (IH {| state := state_after (addToBuffer config event) (state s);
                      closing := closing s |}) as (H1 & H2 & H3).
      cbn [state closing] in *. rewrite <- H1, <- H2, H3.
      unfold state_after, observed.
      destruct (addToBuffer config event (state s)) as [[[] st1] obs1].
      cbn [fst snd].
      by destruct (processLogs Date_toISOString config source st1)
        as [[[] st2] obs2].
    + destruct (IH s) as (H1 & H2 & H3). rewrite <- H1, <- H2, H3.
      unfold state_after, observed. cbn [mret Sync_ret].
      by destruct (processLogs Date_toISOString config source (state s))
        as [[[] st2] obs2].
  - destruct (IH s) as (H1 & H2 & H3). rewrite <- H1, <- H2, H3.
    unfold state_after, observed. cbn [mret Sync_ret].
    by destruct (processLogs Date_toISOString config source (state s))
      as [[[] st2] obs2].
Qed.

End FormatEvent.

(** ** The buffer manager over whole runs *)

Section TransportFurther.

Variable config : Config.

Lemma flush_outcome st :
  (dispatched (observed flush st) = [] /\
   intervals_cleared (observed flush st) = 0 /\
   state_after flush st = st)
  \/ (dispatched (observed flush st) = [buffer st] /\
      intervals_cleared (observed flush st) = 0 /\
      buffer st <> [] /\ flushing st = false /\
      state_after flush st
      = {| buffer := []; flushTimer := flushTimer st;
           closed := closed st; flushing := true |}).
Proof.
  destruct (decide (buffer st <> [] /\ flushing st = false)) as [[Hb Hf]|Hno];
    unfold state_after, observed.
  - right. by rewrite flush_starts.
  - left. rewrite flush_noop; [done|].
    destruct (buffer st); [by left|]. destruct (flushing st); [by right|].
    destruct Hno. by split.
Qed.

Lemma store_state event st :
  state_after (store config event) st
  = {| buffer :=
         (if queueSizeLimit config <=? length (buffer st)
          then tail (buffer st) else buffer st) ++ [event];
       flushTimer := flushTimer st;
       closed := closed st; flushing := flushing st |}.
Proof. unfold state_after. by rewrite store_eq. Qed.

(** What one call does to the lifecycle fields, and what it leaves of the
    events. *)
Lemma step_summary s call :
  let s' := (step config s call).1 in
  let obs := (step config s call).2 in
  closed (state s') = closed (state s) || is_close call /\
  flushTimer (state s')
    = (if is_close call && negb (closed (state s)) then None
       else flushTimer (state s)) /\
  intervals_cleared obs
    = (if is_close call && negb (closed (state s))
          && bool_decide (is_Some (flushTimer (state s)))
       then 1 else 0) /\
  concat (dispatched obs) ++ buffer (state s')
    = match call with
      | Enqueue event =>
          if closed (state s) then buffer (state s)
          else buffer (state_after (store config event) (state s))
      | _ => buffer (state s)
      end.
Proof.
  cbn zeta. destruct call as [event| | |sent].
  - rewrite step_enqueue. destruct (closed (state s)) eqn:Hc.
    { cbn [fst snd is_close andb dispatched omap list_omap concat app].
      by rewrite Hc. }
    cbn zeta. cbn [is_close andb]. rewrite orb_false_r.
    set (st1 := state_after (store config event) (state s)).
    assert (Hst1 : closed st1 = closed (state s)
                   /\ flushTimer st1 = flushTimer (state s)).
    { unfold st1. by rewrite store_state. }
    destruct Hst1 as [Hc1 Ht1].
    destruct (batchSize config <=? length (buffer st1)); cbn [fst snd state].
    + destruct (flush_outcome st1) as [(-> & -> & ->)|(-> & -> & _ & _ & ->)];
        cbn [closed flushTimer buffer concat app];
        rewrite ?app_nil_r; by rewrite ?Hc1, ?Ht1, <- ?Hc.
    + by rewrite Hc1, Ht1, Hc.
  - cbn [step is_close andb]. rewrite orb_false_r.
    destruct (flushTimer (state s)) as [t|] eqn:Ht;
      [|cbn [fst snd]; by rewrite ?Ht].
    pose proof (flush_outcome (state s)) as H.
    unfold state_after, observed in H.
    destruct (flush (state s)) as [[r st] obs]. cbn [fst snd state] in *.
    destruct H as [(-> & -> & ->)|(-> & -> & _ & _ & ->)];
      cbn [closed flushTimer buffer concat app]; rewrite ?app_nil_r, ?Ht;
      done.
  - cbn [step is_close andb]. rewrite orb_true_r.
    destruct (closed (state s)) eqn:Hc.
    + rewrite close_again by done. cbn [fst snd state negb]. by rewrite Hc.
    + rewrite close_eq by done. cbn zeta. cbn [negb].
      destruct ((length (buffer (state s)) =? 0) || flushing (state s));
        cbn [fst snd state closed flushTimer buffer];
        unfold intervals_cleared; rewrite dispatched_app, omap_app;
        destruct (flushTimer (state s)); cbn; by rewrite ?app_nil_r.
  - cbn [step is_close andb]. rewrite orb_false_r.
    destruct (flushing (state s)) eqn:Hf; [|done].
    rewrite flush_resume_eq. cbn [fst snd state closed flushTimer buffer].
    by destruct (closing s).
Qed.

Lemma existsb_close_cons call calls :
  existsb is_close (call :: calls) = is_close call || existsb is_close calls.
Proof. reflexivity. Qed.

Lemma intervals_cleared_app obs1 obs2 :
  intervals_cleared (obs1 ++ obs2)
  = intervals_cleared obs1 + intervals_cleared obs2.
Proof. unfold intervals_cleared. by rewrite omap_app, length_app. Qed.

Lemma run_closed calls s :
  closed (state (run config s calls).1)
  = closed (state s) || existsb is_close calls.
Proof.
  revert s. induction calls as [|call calls IH]; intros s.
  - cbn. by rewrite orb_false_r.
  - rewrite run_cons. cbn [fst]. rewrite IH, existsb_close_cons.
    destruct (step_summary s call) as (-> & _). by rewrite orb_assoc.
Qed.

(** X16.  The transport is closed by [close()] and by nothing else, and stays
    closed: after any calls it is closed exactly when it was closed before
    or one of the calls is a [close()]. *)
Theorem closed_exactly_by_close (s : System) (calls : list Call) :
  closed (state (run config s calls).1)
  = closed (state s) || existsb is_close calls.
Proof. apply run_closed. Qed.

Lemma run_timer calls s :
  flushTimer (state s)
    = (if closed (state s) then None else Some (flushInterval config)) ->
  flushTimer (state (run config s calls).1)
    = (if closed (state s) || existsb is_close calls
       then None else Some (flushInterval config)) /\
  intervals_cleared (run config s calls).2
    = (if negb (closed (state s)) && existsb is_close calls then 1 else 0).
Proof.
  revert s. induction calls as [|call calls IH]; intros s Hs.
  - cbn [run fst snd existsb]. rewrite orb_false_r, andb_false_r. by split.
  - rewrite run_cons. cbn [fst snd].
    destruct (step_summary s call) as (Hc & Ht & Hi & _).
    destruct (IH (step config s call).1) as [IHt IHi].
    { rewrite Ht, Hc, Hs.
      by destruct (closed (state s)), (is_close call). }
    rewrite IHt, intervals_cleared_app, IHi, Hi, Hc, Hs, existsb_close_cons.
    by destruct (closed (state s)), (is_close call), (existsb is_close calls).
Qed.

(** X17.  From the start of the transport the interval timer runs, with the
    configured period, exactly as long as the transport is open, and over
    any calls it is cleared at most once: once when a [close()] is among
    them, never otherwise. *)
Theorem timer_runs_until_close (calls : list Call) :
  let s := (run config (started config) calls).1 in
  let obs := (run config (started config) calls).2 in
  flushTimer (state s)
    = (if closed (state s) then None else Some (flushInterval config)) /\
  closed (state s) = existsb is_close calls /\
  intervals_cleared obs = (if existsb is_close calls then 1 else 0).
Proof.
  cbn zeta. destruct (run_timer calls (started config)) as [Ht Hi]; [done|].
  assert (Hc : closed (state (run config (started config) calls).1)
               = existsb is_close calls).
  { by rewrite run_closed, started_state. }
  rewrite Hc. by rewrite started_state in Ht, Hi.
Qed.

(** *** What becomes of the events *)

Lemma enqueued_cons call calls :
  enqueued (call :: calls) = enqueued [call] ++ enqueued calls.
Proof. by destruct call. Qed.

Lemma step_sublist s call :
  concat (dispatched (step config s call).2)
    ++ buffer (state (step config s call).1)
  `sublist_of` buffer (state s) ++ enqueued [call].
Proof.
  destruct (step_summary s call) as (_ & _ & _ & ->).
  destruct call as [event| | |sent]; cbn [enqueued omap list_omap];
    rewrite ?app_nil_r; try done.
  destruct (closed (state s)); [by apply sublist_inserts_r|].
  rewrite store_state. cbn [buffer]. apply sublist_app; [|done].
  destruct (queueSizeLimit config <=? _); [|done].
  destruct (buffer (state s)); [done|]. by apply sublist_cons.
Qed.

(** X18.  The events handed to the dispatcher, batch after batch, followed by
    those still buffered, are a subsequence of the events buffered at first
    followed by the events enqueued since: no event is sent twice, none is
    made up, and their order is that of their arrival. *)
Theorem events_conserved_in_order (s : System) (calls : list Call) :
  concat (dispatched (run config s calls).2)
    ++ buffer (state (run config s calls).1)
  `sublist_of` buffer (state s) ++ enqueued calls.
Proof.
  revert s. induction calls as [|call calls IH]; intros s.
  - cbn. by rewrite app_nil_r.
  - rewrite run_cons. cbn [fst snd].
    rewrite dispatched_app, concat_app, <- app_assoc.
    rewrite (enqueued_cons call calls).
    etrans.
    + apply sublist_app; [done|apply IH].
    + rewrite !app_assoc. apply sublist_app; [|done]. apply step_sublist.
Qed.

(** X19.  While the transport is open and the limit is not exceeded no event is
    lost: when the events buffered at first and those enqueued fit in
    [queueSizeLimit] and no [close()] is called, the events handed to the
    dispatcher followed by those still buffered are exactly the events
    buffered at first followed by the enqueued ones. *)
Theorem no_event_lost_under_limit (s : System) (calls : list Call) :
  closed (state s) = false ->
  existsb is_close calls = false ->
  length (buffer (state s)) + length (enqueued calls)
    <= queueSizeLimit config ->
  concat (dispatched (run config s calls).2)
    ++ buffer (state (run config s calls).1)
  = buffer (state s) ++ enqueued calls.
Proof.
  revert s. induction calls as [|call calls IH]; intros s Hc Hcalls Hlen.
  - cbn. by rewrite app_nil_r.
  - rewrite existsb_close_cons in Hcalls.
    apply orb_false_iff in Hcalls as [Hcall Hcalls].
    rewrite enqueued_cons, length_app in Hlen.
    destruct (step_summary s call) as (Hc1 & _ & _ & Hstep).
    rewrite Hc, Hcall in Hc1. cbn [orb] in Hc1.
    assert (Hbuf : concat (dispatched (step config s call).2)
                     ++ buffer (state (step config s call).1)
                   = buffer (state s) ++ enqueued [call]).
    { rewrite Hstep. destruct call as [event| | |sent];
        cbn [enqueued omap list_omap]; rewrite ?app_nil_r; try done.
      rewrite Hc, store_state. cbn [buffer].
      assert ((queueSizeLimit config <=? length (buffer (state s))) = false)
        as ->; [|done].
      apply Nat.leb_gt. cbn in Hlen. lia. }
    rewrite run_cons. cbn [fst snd].
    rewrite dispatched_app, concat_app, <- app_assoc, IH; try done.
    + by rewrite (enqueued_cons call calls), !app_assoc, Hbuf.
    + apply (f_equal length) in Hbuf. rewrite !length_app in Hbuf. lia.
Qed.

(** *** One flush at a time *)

Lemma settles_cons call calls :
  settles (call :: calls)
  = (if is_settle call then 1 else 0) + settles calls.
Proof.
  unfold settles. rewrite filter_cons.
  destruct (is_settle call); by case_decide.
Qed.

Lemma step_single_flight s call :
  length (dispatched (step config s call).2)
    + (if flushing (state (step config s call).1) then 0 else 1)
  <= (if is_settle call then 1 else 0)
     + (if flushing (state s) then 0 else 1).
Proof.
  destruct call as [event| | |sent]; cbn [is_settle].
  - rewrite step_enqueue. destruct (closed (state s)); [done|]. cbn zeta.
    pose proof (store_state event (state s)) as Hst.
    set (st1 := state_after (store config event) (state s)) in *.
    assert (Hf : flushing st1 = flushing (state s)) by (by rewrite Hst).
    destruct (batchSize config <=? length (buffer st1)); cbn [fst snd state].
    + destruct (flush_outcome st1) as [(-> & _ & ->)|(-> & _ & _ & Hf1 & ->)].
      * by rewrite Hf.
      * rewrite <- Hf, Hf1. done.
    + by rewrite Hf.
  - cbn [step]. destruct (flushTimer (state s)); [|done].
    pose proof (flush_outcome (state s)) as H.
    unfold state_after, observed in H.
    destruct (flush (state s)) as [[r st] obs]. cbn [fst snd state] in *.
    destruct H as [(-> & _ & ->)|(-> & _ & _ & Hf1 & ->)]; [done|].
    by rewrite Hf1.
  - cbn [step]. destruct (closed (state s)) eqn:Hc.
    + by rewrite close_again.
    + rewrite close_eq by done. cbn zeta.
      destruct ((length (buffer (state s)) =? 0) || flushing (state s)) eqn:E;
        cbn [fst snd state flushing]; rewrite dispatched_app;
        destruct (flushTimer (state s)); cbn [dispatched omap list_omap app length].
      all: try done.
      all: apply orb_false_iff in E as [_ ->]; done.
  - cbn [step]. destruct (flushing (state s)) eqn:Hf;
      [|cbn [fst snd dispatched omap list_omap length]; rewrite Hf; lia].
    rewrite flush_resume_eq. cbn [fst snd state flushing].
    by destruct (closing s).
Qed.

(** X20.  Flushes never overlap: over any calls, the number of flushes started
    is at most the number of times [sendEvents] settled, plus one for a
    flush still in progress at the end if none was in progress at first. *)
Theorem flushes_never_overlap (s : System) (calls : list Call) :
  length (dispatched (run config s calls).2)
    + (if flushing (state (run config s calls).1) then 0 else 1)
  <= settles calls + (if flushing (state s) then 0 else 1).
Proof.
  revert s. induction calls as [|call calls IH]; intros s; [done|].
  rewrite run_cons, settles_cons. cbn [fst snd].
  rewrite dispatched_app, length_app.
  specialize (IH (step config s call).1).
  pose proof (step_single_flight s call). lia.
Qed.

Lemma step_batches s call n batch :
  1 <= n -> queueSizeLimit config <= n ->
  length (buffer (state s)) <= n ->
  batch ∈ dispatched (step config s call).2 ->
  1 <= length batch <= n.
Proof.
  intros Hn Hlimit Hlen.
  assert (Hflush : forall st, length (buffer st) <= n ->
            batch ∈ dispatched (observed flush st) -> 1 <= length batch <= n).
  { intros st Hst.
    destruct (flush_outcome st) as [(-> & _)|(-> & _ & Hne & _)].
    - by intros ?%elem_of_nil.
    - intros ->%list_elem_of_singleton. destruct (buffer st); [done|].
      cbn in *. lia. }
  destruct call as [event| | |sent].
  - rewrite step_enqueue. destruct (closed (state s)).
    { by intros ?%elem_of_nil. }
    cbn zeta. destruct (batchSize config <=? _); cbn [snd].
    + apply Hflush. by apply store_length.
    + by intros ?%elem_of_nil.
  - cbn [step]. destruct (flushTimer (state s)).
    + pose proof (Hflush (state s) Hlen) as H. unfold observed in H.
      by destruct (flush (state s)) as [[r st] obs].
    + by intros ?%elem_of_nil.
  - cbn [step]. destruct (closed (state s)) eqn:Hc.
    + rewrite close_again by done. cbn [snd dispatched omap list_omap].
      by intros ?%elem_of_nil.
    + rewrite close_eq by done. cbn zeta.
      destruct ((length (buffer (state s)) =? 0) || flushing (state s)) eqn:E;
        cbn [snd]; rewrite dispatched_app;
        destruct (flushTimer (state s)); cbn [dispatched omap list_omap app].
      1,2: by intros ?%elem_of_nil.
      all: intros ->%list_elem_of_singleton;
        apply orb_false_iff in E as [E _]; apply Nat.eqb_neq in E; lia.
  - cbn [step]. destruct (flushing (state s)).
    + rewrite flush_resume_eq. cbn [snd].
      destruct (closing s); by intros ?%elem_of_nil.
    + by intros ?%elem_of_nil.
Qed.

(** X21.  From the start of the transport, every batch handed to the dispatcher
    holds at least one event and at most [max queueSizeLimit 1] of them. *)
Theorem batches_nonempty_and_bounded
    (calls : list Call) (batch : list QuickSearchEvent) :
  batch ∈ dispatched (run config (started config) calls).2 ->
  1 <= length batch <= Nat.max (queueSizeLimit config) 1.
Proof.
  assert (H : forall s,
    length (buffer (state s)) <= Nat.max (queueSizeLimit config) 1 ->
    batch ∈ dispatched (run config s calls).2 ->
    1 <= length batch <= Nat.max (queueSizeLimit config) 1).
  { induction calls as [|call calls IH]; intros s Hs.
    - by intros ?%elem_of_nil.
    - rewrite run_cons. cbn [snd]. rewrite dispatched_app.
      intros [Hin|Hin]%elem_of_app.
      + by apply (step_batches s call); [lia|lia|done|done].
      + apply (IH (step config s call).1); [|done].
        apply step_bounded; [lia|lia|done]. }
  apply H. rewrite started_state. cbn. lia.
Qed.

(** X22.  A [close()] that arrives while a flush is in progress strands what is
    buffered: its final [flush()] returns at once, and whatever calls
    follow, the buffer keeps those events and none of them is handed to the
    dispatcher. *)
Theorem close_during_flush_strands_buffer (s : System) (calls : list Call) :
  closed (state s) = false -> flushing (state s) = true ->
  closed (state (run config s (Close :: calls)).1) = true /\
  buffer (state (run config s (Close :: calls)).1) = buffer (state s) /\
  dispatched (run config s (Close :: calls)).2 = [].
Proof.
  intros Hc Hf. rewrite run_cons. cbn [fst snd].
  assert (Hclose : closed (state (step config s Close).1) = true
                   /\ flushTimer (state (step config s Close).1) = None
                   /\ buffer (state (step config s Close).1) = buffer (state s)
                   /\ dispatched (step config s Close).2 = []).
  { cbn [step]. rewrite close_eq by done. cbn zeta.
    rewrite Hf, orb_true_r. cbn [fst snd state closed flushTimer buffer].
    rewrite dispatched_app. by destruct (flushTimer (state s)). }
  destruct Hclose as (Hc1 & Ht1 & Hb1 & Hd1).
  destruct (run_shut config calls _ Hc1 Ht1) as (Hc2 & _ & Hb2 & _ & Hd2 & _).
  by rewrite dispatched_app, Hd1, Hd2, Hb2, Hb1.
Qed.

End TransportFurther.

(** ** Instances *)

Lemma retry_stops_at_first_final_answer_witness :
  let run := sendEventWithRetry message_only sample_client
               (sample_event "hi") down_then_up in
  (forall r, (sendEvent message_only sample_client (sample_event "hi")
                (down_then_up 3)).2 = Returned r ->
     run.2 = Delivered r) /\
  (forall e, (sendEvent message_only sample_client (sample_event "hi")
                (down_then_up 3)).2 = Threw e ->
     isNonRetryableError e = true -> run.2 = Aborted e) /\
  (((exists r, (sendEvent message_only sample_client (sample_event "hi")
                  (down_then_up 3)).2 = Returned r) \/
    (exists e, (sendEvent message_only sample_client (sample_event "hi")
                  (down_then_up 3)).2 = Threw e
               /\ isNonRetryableError e = true)) ->
   length (fetches run.1) = 3 + 1 /\
   sleeps run.1 = map (fun k => (1000 * 2 ^ Z.of_nat k)%Z) (seq 0 3) /\
   last run.1
     = Some (Fetch (request message_only sample_client (sample_event "hi")))).
Proof.
  apply (retry_stops_at_first_final_answer message_only sample_client
           (sample_event "hi") down_then_up 3).
  - vm_compute. lia.
  - intros k Hk. destruct k as [|[|[|k]]]; [reflexivity..|lia].
Defined.

Lemma non_retryable_iff_client_error_witness :
  (isNonRetryableError (http_error 404 None) = true <->
   400 <= 404 <= 499 /\ 404 <> 429) /\
  (forall e, code e = None \/ code e = Some EmptyString ->
     isNonRetryableError e = false).
Proof. apply (non_retryable_iff_client_error 404 None). lia. Defined.

Lemma format_copies_additional_witness :
  exists event,
    formatEvent sample_clock proto_record "test-app" = Returned event /\
    get_own "userId" (data event) = Some (JString "user-123") /\
    get_own "__proto__" (data event) = None.
Proof.
  eexists. split; [reflexivity|].
  edestruct (format_copies_additional sample_clock proto_record "test-app")
    as (Hcopy & _ & Hproto); [| reflexivity |].
  - cbn. apply NoDup_cons. split; [|apply NoDup_singleton].
    by intros ?%list_elem_of_singleton.
  - split; [|exact Hproto]. apply Hcopy.
    + cbn. apply elem_of_cons. right. apply elem_of_cons. by left.
    + by vm_compute.
    + discriminate.
Defined.

(** The record with a [__proto__] member, formatted: the member is in the
    record and passes the test of the copy loop, and [data] has the three
    fixed properties and [userId] only. *)
Example proto_record_data :
  ("__proto__", JString "x") ∈ Pino.rest proto_record /\
  copied "__proto__" = true /\
  formatEvent sample_clock proto_record "test-app"
  = Returned
      {| type := Information; application := "test-app";
         timestamp := sample_clock 1703937600000; message := "User action";
         data := [("level", JString "info"); ("pid", JNumber 12345);
                  ("hostname", JString "test-server");
                  ("userId", JString "user-123")] |}.
Proof.
  split; [apply elem_of_cons; by left|]. split; by vm_compute.
Qed.

Lemma format_data_origin_witness :
  exists event,
    formatEvent sample_clock sample_record "test-app" = Returned event /\
    (forall key value,
       get_own key (data event) = Some value ->
       key ∈ ["level"; "pid"; "hostname"; "exception"; "exceptionType";
              "exceptionMessage"; "traceId"; "spanId"]
       \/ ((key, value) ∈ Pino.rest sample_record /\ copied key = true)) /\
    (forall key, key ∈ ["time"; "msg"; "err"; "v"] ->
       get_own key (data event) = None).
Proof.
  eexists. split; [reflexivity|].
  apply (format_data_origin sample_clock sample_record "test-app").
  reflexivity.
Defined.


Lemma no_event_lost_under_limit_witness :
  concat (dispatched (run small_batch_config (started small_batch_config)
                        [Enqueue (sample_event "a"); Tick;
                         Enqueue (sample_event "b")]).2)
    ++ buffer (state (run small_batch_config (started small_batch_config)
                        [Enqueue (sample_event "a"); Tick;
                         Enqueue (sample_event "b")]).1)
  = buffer (state (started small_batch_config))
    ++ enqueued [Enqueue (sample_event "a"); Tick; Enqueue (sample_event "b")].
Proof.
  apply (no_event_lost_under_limit small_batch_config
           (started small_batch_config)); [reflexivity|reflexivity|].
  vm_compute. lia.
Defined.

Lemma batches_nonempty_and_bounded_witness :
  1 <= length [sample_event "a"; sample_event "b"]
    <= Nat.max (queueSizeLimit small_batch_config) 1.
Proof.
  apply (batches_nonempty_and_bounded small_batch_config
           [Enqueue (sample_event "a"); Enqueue (sample_event "b")]).
  apply list_elem_of_singleton. reflexivity.
Defined.

Lemma close_during_flush_strands_buffer_witness :
  closed (state (run small_batch_config busy_system
                   [Close; Settle (Returned tt); Tick; Close]).1) = true /\
  buffer (state (run small_batch_config busy_system
                   [Close; Settle (Returned tt); Tick; Close]).1)
    = buffer (state busy_system) /\
  dispatched (run small_batch_config busy_system
                [Close; Settle (Returned tt); Tick; Close]).2 = [].
Proof.
  apply (close_during_flush_strands_buffer small_batch_config busy_system);
    reflexivity.
Defined.

(** The events stranded in the instance above: the third one. *)
Example stranded_event : buffer (state busy_system) = [sample_event "c"].
Proof. reflexivity. Qed.

(** A batch can hold more than [batchSize] events: with [batchSize: 2],
    three events that arrive while a flush is in progress leave together at
    the next trigger. *)
Example batch_larger_than_batchSize :
  dispatched (run small_batch_config (started small_batch_config)
                (map Enqueue five_events ++ [Settle (Returned tt); Tick])).2
  = [[sample_event "a"; sample_event "b"];
     [sample_event "c"; sample_event "d"; sample_event "e"]].
Proof. reflexivity. Qed.
